(** * formap: [formToMap] and [getChildValue] of src/index.ts

    A shallow embedding of the traversal-and-merge core of the library.
    JavaScript values are split, as the TypeScript types do, into
    [JSONValue] (what seeds are typed with) and [JSValue], which adds
    [undefined] (what an unchecked [getValue()] cast or a mutator can
    yield at run time).  Arrays and plain objects live in a store and are
    referred to by location, because the merge loop pushes onto arrays in
    place and the mutator pass compares with [!==].  The result is a
    JavaScript [Map], modelled with the entry list of the language
    standard: deleted entries leave an empty slot behind, so that a
    [forEach] running while entries are deleted can be followed slot by
    slot. *)

From Stdlib Require Import ZArith NArith Ascii String List Bool Lia.
From stdpp Require Import base option list strings.
Import ListNotations.
Local Open Scope string_scope.
Local Open Scope list_scope.

(** ** Values and the store *)

Abbreviation loc := nat.

(** [JSONValue] of json-types2: primitives, and references to arrays and
    objects.  Numbers are never inspected by the code; integers stand for
    them. *)
Inductive JSONValue : Type :=
  | JNull
  | JBool (b : bool)
  | JNum (n : Z)
  | JStr (s : string)
  | JRef (l : loc).

Inductive JSValue : Type :=
  | VUndefined
  | VJson (j : JSONValue).

Coercion VJson : JSONValue >-> JSValue.

Inductive object : Type :=
  | OArray (elems : list JSValue)
  | ORecord (props : list (string * JSValue)).

Abbreviation heap := (list object).

(** [v == null] *)
Definition is_nullish (v : JSValue) : bool :=
  match v with
  | VUndefined => true
  | VJson JNull => true
  | _ => false
  end.

(** [a === b] *)
Definition strict_equal (a b : JSValue) : bool :=
  match a, b with
  | VUndefined, VUndefined => true
  | VJson JNull, VJson JNull => true
  | VJson (JBool x), VJson (JBool y) => Bool.eqb x y
  | VJson (JNum x), VJson (JNum y) => Z.eqb x y
  | VJson (JStr x), VJson (JStr y) => String.eqb x y
  | VJson (JRef x), VJson (JRef y) => Nat.eqb x y
  | _, _ => false
  end.

Definition Array_isArray (σ : heap) (v : JSValue) : bool :=
  match v with
  | VJson (JRef l) =>
      match σ !! l with
      | Some (OArray _) => true
      | _ => false
      end
  | _ => false
  end.

(** The elements a spread [...v] enumerates. *)
Definition spread (σ : heap) (v : JSValue) : list JSValue :=
  match v with
  | VJson (JRef l) =>
      match σ !! l with
      | Some (OArray elems) => elems
      | _ => []
      end
  | _ => []
  end.

(** [v.push(...items)]: the array at [v] grows in place. *)
Definition Array_push (σ : heap) (v : JSValue) (items : list JSValue) : heap :=
  match v with
  | VJson (JRef l) =>
      match σ !! l with
      | Some (OArray elems) => <[l := OArray (elems ++ items)]> σ
      | _ => σ
      end
  | _ => σ
  end.

(** An array literal or [Array.from] allocates at the next free location. *)
Definition alloc (σ : heap) (o : object) : JSValue * heap :=
  (VJson (JRef (length σ)), σ ++ [o]).

(** ** Strings

    Strings are byte strings; [toLowerCase] maps the ASCII capitals, which
    is all that matters for membership in lists of ASCII words. *)

Definition lower_ascii (c : ascii) : ascii :=
  let n := nat_of_ascii c in
  if (65 <=? n)%nat && (n <=? 90)%nat then ascii_of_nat (n + 32) else c.

Fixpoint toLowerCase (s : string) : string :=
  match s with
  | EmptyString => EmptyString
  | String c s' => String (lower_ascii c) (toLowerCase s')
  end.

(** [list.includes(s)] on an array of strings *)
Definition includes (l : list string) (s : string) : bool :=
  existsb (String.eqb s) l.

(** ** The JavaScript Map

    [MapData] is the entry list of a Map: [None] is an entry emptied by
    [delete].  [set] on a present key overwrites in place, on an absent
    key appends. *)

Abbreviation MapData := (list (option (string * JSValue))).

Fixpoint Map_get (k : string) (m : MapData) : JSValue :=
  match m with
  | [] => VUndefined
  | Some (k', v) :: m' => if String.eqb k' k then v else Map_get k m'
  | None :: m' => Map_get k m'
  end.

Fixpoint Map_has (k : string) (m : MapData) : bool :=
  match m with
  | [] => false
  | Some (k', _) :: m' => if String.eqb k' k then true else Map_has k m'
  | None :: m' => Map_has k m'
  end.

Fixpoint Map_set (k : string) (v : JSValue) (m : MapData) : MapData :=
  match m with
  | [] => [Some (k, v)]
  | Some (k', v') :: m' =>
      if String.eqb k' k then Some (k', v) :: m'
      else Some (k', v') :: Map_set k v m'
  | None :: m' => None :: Map_set k v m'
  end.

Fixpoint Map_delete (k : string) (m : MapData) : MapData :=
  match m with
  | [] => []
  | Some (k', v') :: m' =>
      if String.eqb k' k then None :: m'
      else Some (k', v') :: Map_delete k m'
  | None :: m' => None :: Map_delete k m'
  end.

(** What iterating the Map shows: the live entries, in order. *)
Fixpoint Map_entries (m : MapData) : list (string * JSValue) :=
  match m with
  | [] => []
  | Some e :: m' => e :: Map_entries m'
  | None :: m' => Map_entries m'
  end.

Definition Map_keys (m : MapData) : list string := map fst (Map_entries m).

(** [m.forEach(cb)] as the standard runs it: an index walks the entry
    list, the bound is re-read after every call, empty slots are passed
    over.  The callback may change the Map it iterates and a state [S].
    [None]: the fuel ran out before the index reached the end. *)
Fixpoint Map_forEach {S : Type} (fuel : nat)
    (cb : JSValue -> string -> MapData * S -> MapData * S)
    (index : nat) (st : MapData * S) : option (MapData * S) :=
  if (length (fst st) <=? index)%nat then Some st
  else
    match fuel with
    | O => None
    | Datatypes.S fuel' =>
        match fst st !! index with
        | Some (Some (k, v)) => Map_forEach fuel' cb (Datatypes.S index) (cb v k st)
        | _ => Map_forEach fuel' cb (Datatypes.S index) st
        end
    end.

(** ** The DOM as the code reads it *)

Inductive ElementKind : Type :=
  | HTMLInputElement
  | HTMLSelectElement
  | HTMLTextAreaElement
  | HTMLOtherElement.

(** A property found on an element: a function, given by what calling it
    with no argument returns, or anything else. *)
Inductive Property : Type :=
  | Function (result : JSValue)
  | NonFunction (v : JSValue).

(** [name_attr] is the content attribute ([None]: absent); [disabled] is
    what [:enabled] looks at. *)
Record Element : Type := mkElement {
  kind : ElementKind;
  name_attr : option string;
  disabled : bool;
  type : string;
  value : string;
  checked : bool;
  multiple : bool;
  selectedOptions : list string;
  getValue : option Property
}.

(** [child.name] reflects the attribute, the empty string when absent. *)
Definition name (e : Element) : string :=
  match name_attr e with
  | Some s => s
  | None => ""
  end.

(** The descendants of the form, in document order. *)
Record HTMLFormElement : Type := mkForm {
  descendants : list Element
}.

(** What a caller can pass where a form is expected: undefined, null,
    any other JSON value, an element that is not a form, or a form. *)
Inductive Argument : Type :=
  | ArgUndefined
  | ArgNull
  | ArgValue (j : JSONValue)
  | ArgElement (e : Element)
  | ArgForm (f : HTMLFormElement).

Definition truthy (a : Argument) : bool :=
  match a with
  | ArgUndefined | ArgNull => false
  | ArgValue JNull => false
  | ArgValue (JBool b) => b
  | ArgValue (JNum n) => negb (Z.eqb n 0)
  | ArgValue (JStr s) => negb (String.eqb s "")
  | ArgValue (JRef _) => true
  | ArgElement _ => true
  | ArgForm _ => true
  end.

Definition instanceof_HTMLFormElement (a : Argument) : bool :=
  match a with
  | ArgForm _ => true
  | _ => false
  end.

(** [":is(input, select, textarea)[name]:enabled"] *)
Definition matches_selector (e : Element) : bool :=
  match kind e with
  | HTMLOtherElement => false
  | _ => true
  end
  && match name_attr e with Some _ => true | None => false end
  && negb (disabled e).

Definition querySelectorAll (f : HTMLFormElement) : list Element :=
  List.filter matches_selector (descendants f).

(** ** Options *)

Inductive IFormAppend : Type :=
  | SeedMap (entries : list (string * JSONValue))
  | SeedObject (entries : list (string * JSONValue)).

Definition seed_entries (s : IFormAppend) : list (string * JSONValue) :=
  match s with
  | SeedMap entries => entries
  | SeedObject entries => entries
  end.

Definition IFormMapMutatorFunction : Type :=
  string -> JSValue -> heap -> JSValue * heap.

Record IFormToSerializableOptions : Type := mkOptions {
  mutator : option IFormMapMutatorFunction;
  append : option IFormAppend;
  prepend : option IFormAppend
}.

(** ** getChildValue *)

(** Line 244: [child instanceof HTMLInputElement] and the type is
    checkbox or radio. *)
Definition isInputCheckable (child : Element) : bool :=
  match kind child with
  | HTMLInputElement => includes ["checkbox"; "radio"] (toLowerCase (type child))
  | _ => false
  end.

(** Line 233: a [getValue] property that is a function. *)
Definition callable_getValue (child : Element) : option JSValue :=
  match getValue child with
  | Some (Function result) => Some result
  | _ => None
  end.

Definition getChildValue (child : Element) (σ : heap) : JSValue * heap :=
  match callable_getValue child with
  | Some result => (result, σ)
  | None =>
      let '(childValue, σ1) :=
        match kind child with
        | HTMLSelectElement =>
            if multiple child
            then alloc σ (OArray (map (fun s => VJson (JStr s)) (selectedOptions child)))
            else (VJson (JStr (value child)), σ)
        | _ => (VJson (JStr (value child)), σ)
        end in
      if isInputCheckable child
      then ((if checked child then childValue else VJson JNull), σ1)
      else (childValue, σ1)
  end.

(** ** formToMap

    A call throws, returns the Map (with the store as it then is), or,
    in the model only, stops because the fuel given to the mutator pass
    ran out; [formToMap_returns] shows that the last never happens. *)

Inductive Outcome : Type :=
  | Threw (message : string)
  | Returned (data : MapData) (σ : heap)
  | OutOfFuel.

Definition InvalidArgument : Outcome :=
  Threw "The form element must be an HTMLFormElement.".

(** Lines 133-143 and 205-215: every seed entry is [set] into [data]. *)
Definition apply_seed (seed : option IFormAppend) (data : MapData) : MapData :=
  match seed with
  | None => data
  | Some s =>
      fold_left (fun d kv => Map_set (fst kv) (VJson (snd kv)) d) (seed_entries s) data
  end.

(** The type test of line 171. *)
Definition skipped_type (child : Element) : bool :=
  includes ["submit"; "button"; "reset"; "file"] (toLowerCase (type child)).

(** Lines 178-202: folding one (name, value) pair into [data]. *)
Definition merge (childName : string) (childValue : JSValue)
    (st : MapData * heap) : MapData * heap :=
  let '(data, σ) := st in
  let previousValue := Map_get childName data in
  if is_nullish previousValue then (Map_set childName childValue data, σ)
  else if is_nullish childValue then (data, σ)
  else if Array_isArray σ previousValue then
    let items := if Array_isArray σ childValue then spread σ childValue
                 else [childValue] in
    (Map_set childName previousValue data, Array_push σ previousValue items)
  else
    let items := if Array_isArray σ childValue then spread σ childValue
                 else [childValue] in
    let '(arr, σ') := alloc σ (OArray (previousValue :: items)) in
    (Map_set childName arr data, σ').

(** One turn of the loop of lines 155-203.  (The [!child] test of line
    158 never fires: the elements of a node list are objects.) *)
Definition walk_step (st : MapData * heap) (child : Element) : MapData * heap :=
  let '(data, σ) := st in
  if skipped_type child then (data, σ)
  else
    let childName := name child in
    let '(childValue, σ1) := getChildValue child σ in
    merge childName childValue (data, σ1).

Definition walk (children : list Element) (st : MapData * heap) : MapData * heap :=
  fold_left walk_step children st.

(** The callback of lines 218-226. *)
Definition mutate_entry (mutator : IFormMapMutatorFunction)
    (value : JSValue) (key : string) (st : MapData * heap) : MapData * heap :=
  let '(data, σ) := st in
  let '(newValue, σ') := mutator key value σ in
  if strict_equal newValue VUndefined then (Map_delete key data, σ')
  else if negb (strict_equal newValue value) then (Map_set key newValue data, σ')
  else (data, σ').

(** The state of the call when the mutator pass starts (lines 131-215). *)
Definition merged (f : HTMLFormElement) (opts : IFormToSerializableOptions)
    (σ : heap) : MapData * heap :=
  let data := apply_seed (prepend opts) [] in
  let children := querySelectorAll f in
  let '(data, σ) := walk children (data, σ) in
  (apply_seed (append opts) data, σ).

Definition formToMap (formElement : Argument) (opts : IFormToSerializableOptions)
    (σ : heap) : Outcome :=
  if negb (truthy formElement) || negb (instanceof_HTMLFormElement formElement)
  then InvalidArgument
  else
    match formElement with
    | ArgForm f =>
        let '(data, σ1) := merged f opts σ in
        match mutator opts with
        | None => Returned data σ1
        | Some mu =>
            match Map_forEach (length data) (mutate_entry mu) 0 (data, σ1) with
            | Some (data', σ2) => Returned data' σ2
            | None => OutOfFuel
            end
        end
    | _ => InvalidArgument
    end.

(** The controls that reach the merge: matched by the selector and not
    passed over by the type test. *)
Definition eligible (e : Element) : bool :=
  matches_selector e && negb (skipped_type e).

Definition walked (f : HTMLFormElement) : list Element :=
  List.filter eligible (descendants f).

(** What an eligible control adds to the state. *)
Definition contribute (st : MapData * heap) (child : Element) : MapData * heap :=
  let '(childValue, σ1) := getChildValue child (snd st) in
  merge (name child) childValue (fst st, σ1).

Definition seed_keys (seed : option IFormAppend) : list string :=
  match seed with
  | None => []
  | Some s => map fst (seed_entries s)
  end.

Definition seed_list (seed : option IFormAppend) : list (string * JSONValue) :=
  match seed with
  | None => []
  | Some s => seed_entries s
  end.

Definition with_mutator (mu : option IFormMapMutatorFunction)
    (opts : IFormToSerializableOptions) : IFormToSerializableOptions :=
  {| mutator := mu; append := append opts; prepend := prepend opts |}.

(** Three mutators: [(key, value) => value], [() => undefined], and one
    that also records every call it receives, as a fresh object holding
    the key and the value it was called with. *)
Definition identity_mutator : IFormMapMutatorFunction :=
  fun _ value σ => (value, σ).

Definition deleting_mutator : IFormMapMutatorFunction :=
  fun _ _ σ => (VUndefined, σ).

Definition recording_deleting_mutator : IFormMapMutatorFunction :=
  fun key value σ => (VUndefined, σ ++ [ORecord [(key, value)]]).

Definition no_options : IFormToSerializableOptions :=
  {| mutator := None; append := None; prepend := None |}.

(** ** Sample forms *)

Definition text_input (n v : string) : Element :=
  {| kind := HTMLInputElement; name_attr := Some n; disabled := false;
     type := "text"; value := v; checked := false; multiple := false;
     selectedOptions := []; getValue := None |}.

Definition checkbox (n v : string) (c : bool) : Element :=
  {| kind := HTMLInputElement; name_attr := Some n; disabled := false;
     type := "checkbox"; value := v; checked := c; multiple := false;
     selectedOptions := []; getValue := None |}.

Definition select_multiple (n : string) (sel : list string) : Element :=
  {| kind := HTMLSelectElement; name_attr := Some n; disabled := false;
     type := "select-multiple"; value := hd "" sel; checked := false;
     multiple := true; selectedOptions := sel; getValue := None |}.

Definition custom_control (base : Element) (result : JSValue) : Element :=
  {| kind := kind base; name_attr := name_attr base; disabled := disabled base;
     type := type base; value := value base; checked := checked base;
     multiple := multiple base; selectedOptions := selectedOptions base;
     getValue := Some (Function result) |}.

Definition scenario_form : HTMLFormElement :=
  {| descendants :=
       [ text_input "a" "1"; text_input "tags" "t1"; text_input "tags" "t2";
         checkbox "flag" "on" false ] |}.

(** ** The mutator pass, entry by entry

    What lines 217-227 amount to when every entry present at the start
    of the pass is handed to the mutator once, in order: on the slots of
    the Map and on the entries it shows. *)

Fixpoint mutate_slots (mu : IFormMapMutatorFunction) (slots : MapData)
    (σ : heap) : MapData * heap :=
  match slots with
  | [] => ([], σ)
  | None :: rest =>
      let '(rest', σ') := mutate_slots mu rest σ in (None :: rest', σ')
  | Some (k, v) :: rest =>
      let '(newValue, σ1) := mu k v σ in
      let '(rest', σ') := mutate_slots mu rest σ1 in
      ((if strict_equal newValue VUndefined then None else Some (k, newValue)) :: rest', σ')
  end.

Fixpoint mutate_entries (mu : IFormMapMutatorFunction)
    (entries : list (string * JSValue)) (σ : heap)
    : list (string * JSValue) * heap :=
  match entries with
  | [] => ([], σ)
  | (k, v) :: rest =>
      let '(newValue, σ1) := mu k v σ in
      let '(rest', σ') := mutate_entries mu rest σ1 in
      (match newValue with
       | VUndefined => rest'
       | _ => (k, newValue) :: rest'
       end, σ')
  end.

(** Two Maps that answer every lookup alike, except that under the name
    [n] both may hold nothing or null in different ways. *)
Definition same_up_to_null (n : string) (d1 d2 : MapData) : Prop :=
  forall k,
    Map_get k d1 = Map_get k d2
    \/ (k = n /\ is_nullish (Map_get k d1) = true /\ is_nullish (Map_get k d2) = true).

(** ** Repeated names

    A non-null scalar, as the merge sees it in the store [σ]: neither
    null nor undefined, and not an array (a primitive, or a reference to
    a plain object). *)
Definition scalar (σ : heap) (v : JSValue) : bool :=
  match v with
  | VUndefined => false
  | VJson JNull => false
  | VJson (JRef l) =>
      match σ !! l with
      | Some (ORecord _) => true
      | _ => false
      end
  | VJson _ => true
  end.

(** A value that exists in the store [σ]: a reference points into it. *)
Definition allocated (σ : heap) (v : JSValue) : Prop :=
  match v with
  | VJson (JRef l) => l < length σ
  | _ => True
  end.

(** The values, in walk order, of the walked controls named [n]. *)
Definition named_values (n : string) (σ : heap) (controls : list Element)
    : list JSValue :=
  map (fun c => fst (getChildValue c σ))
      (List.filter (fun c => String.eqb (name c) n) controls).

(** The entry [v] gathers the values [vs]: nothing yet, the one value
    itself, or an array holding all of them in order. *)
Definition collected (σ : heap) (v : JSValue) (vs : list JSValue) : Prop :=
  match vs with
  | [] => is_nullish v = true
  | [x] => v = x
  | _ => exists l, v = VJson (JRef l) /\ σ !! l = Some (OArray vs)
  end.

(** The store only grows over [σ0], and its plain objects stay. *)
Definition heap_extends (σ0 σ : heap) : Prop :=
  length σ0 <= length σ
  /\ forall l ps, σ0 !! l = Some (ORecord ps) -> σ !! l = Some (ORecord ps).

Definition refs_allocated (data : MapData) (σ : heap) : Prop :=
  forall k, allocated σ (Map_get k data).

(** As [collected], and the array is one the loop made itself, held by
    no other entry. *)
Definition entry_collects (σ0 : heap) (n : string) (acc : list JSValue)
    (data : MapData) (σ : heap) : Prop :=
  match acc with
  | [] => is_nullish (Map_get n data) = true
  | [x] => Map_get n data = x
  | _ => exists l, Map_get n data = VJson (JRef l)
                   /\ σ !! l = Some (OArray acc)
                   /\ length σ0 <= l
                   /\ forall k, k <> n -> Map_get k data <> VJson (JRef l)
  end.

Definition walk_invariant (σ0 : heap) (n : string) (acc : list JSValue)
    (st : MapData * heap) : Prop :=
  heap_extends σ0 (snd st)
  /\ refs_allocated (fst st) (snd st)
  /\ entry_collects σ0 n acc (fst st) (snd st).

(** In array mode, [v] is not the array of the entry under [n]. *)
Definition not_the_array (n : string) (acc : list JSValue) (data : MapData)
    (v : JSValue) : Prop :=
  match acc with
  | _ :: _ :: _ => v <> Map_get n data
  | _ => True
  end.

(** ** Keys and values of the result *)

(** Every entry has its key in [K] and a value other than undefined. *)
Definition entries_within (K : list string) (data : MapData) : Prop :=
  forall k v, In (k, v) (Map_entries data) -> In k K /\ v <> VUndefined.

(** Prepend keys, names of the walked controls, append keys. *)
Definition result_keys (f : HTMLFormElement) (opts : IFormToSerializableOptions)
    : list string :=
  seed_keys (prepend opts) ++ map name (walked f) ++ seed_keys (append opts).

(** A mutator without effect on the store, and what it makes of one
    entry: nothing when it returns undefined, the entry with the returned
    value otherwise. *)
Definition pure_mutator (g : string -> JSValue -> JSValue) : IFormMapMutatorFunction :=
  fun key value σ => (g key value, σ).

Definition mutated_entry (g : string -> JSValue -> JSValue)
    (e : string * JSValue) : list (string * JSValue) :=
  match g (fst e) (snd e) with
  | VUndefined => []
  | newValue => [(fst e, newValue)]
  end.

(** Moving the index past a slot: the slot joins the prefix. *)
Ltac next_slot IH :=
  match goal with
  | |- context [Map_forEach _ _ (Datatypes.S (length ?pre)) (?pre ++ ?slot :: ?rest, _)] =>
      replace (Datatypes.S (length pre)) with (length (pre ++ [slot]))
        by (rewrite length_app; simpl; lia);
      rewrite (cons_middle slot pre rest), (app_assoc pre [slot] rest);
      rewrite IH; [| rewrite <- app_assoc, <- cons_middle | ]
  end.

(** ** Order of keys, the pairs of the walk, seed lookups *)

(** Keys in the order in which they are first seen. *)
Definition add_key (seen : list string) (k : string) : list string :=
  if existsb (String.eqb k) seen then seen else seen ++ [k].

Definition first_seen (keys : list string) : list string :=
  fold_left add_key keys [].

(** The (name, value) pairs that the controls yield one after the other,
    and the store after the extractions alone. *)
Fixpoint extract (controls : list Element) (σ : heap)
    : list (string * JSValue) * heap :=
  match controls with
  | [] => ([], σ)
  | c :: rest =>
      let '(v, σ1) := getChildValue c σ in
      let '(pairs, σ') := extract rest σ1 in
      ((name c, v) :: pairs, σ')
  end.

(** The value a seed gives last under a key. *)
Fixpoint last_under (k : string) (entries : list (string * JSONValue))
    : option JSONValue :=
  match entries with
  | [] => None
  | (k', j) :: rest =>
      match last_under k rest with
      | Some j' => Some j'
      | None => if String.eqb k' k then Some j else None
      end
  end.

Definition seed_pairs (seed : option IFormAppend) : list (string * JSValue) :=
  map (fun kj => (fst kj, VJson (snd kj))) (seed_list seed).

(** ** What a call may do to the store

    [σ'] has every object of [σ] where it was; plain objects are the
    same, arrays have at most gained elements at their end. *)
Definition grown (σ σ' : heap) : Prop :=
  length σ <= length σ'
  /\ forall l,
       match σ !! l with
       | Some (ORecord ps) => σ' !! l = Some (ORecord ps)
       | Some (OArray elems) => exists more, σ' !! l = Some (OArray (elems ++ more))
       | None => True
       end.

(** No entry of the Map points into the first [bound] locations. *)
Definition refs_beyond (bound : nat) (data : MapData) : Prop :=
  forall k l, Map_get k data = VJson (JRef l) -> bound <= l.

(** ** One name, native controls

    What a control without a callable [getValue] yields, read off its
    fields: null, a string, or the list of the selected options. *)
Inductive NativeValue : Type :=
  | NNull
  | NStr (s : string)
  | NList (options : list string).

Definition native_value (c : Element) : NativeValue :=
  match kind c with
  | HTMLSelectElement =>
      if multiple c then NList (selectedOptions c) else NStr (value c)
  | _ =>
      if isInputCheckable c
      then (if checked c then NStr (value c) else NNull)
      else NStr (value c)
  end.

Definition strings (l : list string) : list JSValue :=
  map (fun s => VJson (JStr s)) l.

(** What an entry has gathered: a value that is no array, or the
    elements of an array. *)
Inductive Gathered : Type :=
  | GValue (v : JSValue)
  | GArray (elems : list JSValue).

(** The collision policy on values alone: a null or missing entry takes
    whatever comes; null never changes an entry that holds something; a
    string joins, and a list is spliced into, the array that the entry is
    or becomes. *)
Definition gather_step (g : Gathered) (nv : NativeValue) : Gathered :=
  match g with
  | GValue v =>
      if is_nullish v then
        match nv with
        | NNull => GValue (VJson JNull)
        | NStr s => GValue (VJson (JStr s))
        | NList l => GArray (strings l)
        end
      else
        match nv with
        | NNull => g
        | NStr s => GArray [v; VJson (JStr s)]
        | NList l => GArray (v :: strings l)
        end
  | GArray elems =>
      match nv with
      | NNull => g
      | NStr s => GArray (elems ++ [VJson (JStr s)])
      | NList l => GArray (elems ++ strings l)
      end
  end.

Definition gather (start : JSValue) (controls : list Element) : Gathered :=
  fold_left gather_step (map native_value controls) (GValue start).

(** A value that is not a reference. *)
Definition plain (v : JSValue) : bool :=
  match v with
  | VJson (JRef _) => false
  | _ => true
  end.

(** The value [v] in the store [σ] is what [g] describes. *)
Definition holds (σ : heap) (v : JSValue) (g : Gathered) : Prop :=
  match g with
  | GValue x => v = x
  | GArray elems => exists l, v = VJson (JRef l) /\ σ !! l = Some (OArray elems)
  end.

(** As [holds] for the entry under [n], a value being plain and an array
    being one made during the call and held by no other entry. *)
Definition entry_holds (σ0 : heap) (n : string) (g : Gathered)
    (data : MapData) (σ : heap) : Prop :=
  match g with
  | GValue v => Map_get n data = v /\ plain v = true
  | GArray elems =>
      exists l, Map_get n data = VJson (JRef l)
                /\ σ !! l = Some (OArray elems)
                /\ length σ0 <= l
                /\ forall k, k <> n -> Map_get k data <> VJson (JRef l)
  end.

Definition gather_invariant (σ0 : heap) (n : string) (g : Gathered)
    (st : MapData * heap) : Prop :=
  heap_extends σ0 (snd st)
  /\ refs_allocated (fst st) (snd st)
  /\ entry_holds σ0 n g (fst st) (snd st).

Definition named (n : string) (controls : list Element) : list Element :=
  List.filter (fun c => String.eqb (name c) n) controls.

Definition seed_value (seed : option IFormAppend) (k : string) : JSValue :=
  match last_under k (seed_list seed) with
  | Some j => VJson j
  | None => VUndefined
  end.

(** ** Plain objects

    The own properties of an object, in the order of their creation.
    [Object_define] is what [Object.fromEntries] does with each entry:
    a key already there keeps its place and takes the new value.
    [Object_keys] is the order in which the properties are enumerated:
    array indices first, by ascending value, then the other keys in
    creation order.  Inherited properties are not modelled: lookups are
    of own properties. *)

Section PlainObject.

Context {V : Type}.

Fixpoint Object_define (k : string) (v : V) (props : list (string * V))
    : list (string * V) :=
  match props with
  | [] => [(k, v)]
  | (k', v') :: rest =>
      if String.eqb k' k then (k', v) :: rest
      else (k', v') :: Object_define k v rest
  end.

Definition Object_fromEntries (entries : list (string * V)) : list (string * V) :=
  fold_left (fun props kv => Object_define (fst kv) (snd kv) props) entries [].

Fixpoint Object_getOwn (k : string) (props : list (string * V)) : option V :=
  match props with
  | [] => None
  | (k', v) :: rest => if String.eqb k' k then Some v else Object_getOwn k rest
  end.

End PlainObject.

(** An array index: "0", or decimal digits not starting with 0, of value
    at most 2^32 - 2. *)
Definition digit_of (c : ascii) : option N :=
  let n := N_of_ascii c in
  if (48 <=? n)%N && (n <=? 57)%N then Some (n - 48)%N else None.

Fixpoint decimal (s : string) (acc : N) : option N :=
  match s with
  | EmptyString => Some acc
  | String c s' =>
      match digit_of c with
      | Some d => decimal s' (10 * acc + d)%N
      | None => None
      end
  end.

Definition array_index (s : string) : option N :=
  match s with
  | EmptyString => None
  | String c rest =>
      if Ascii.eqb c "0"%char && negb (String.eqb rest "") then None
      else
        match decimal s 0 with
        | Some n => if (n <=? 4294967294)%N then Some n else None
        | None => None
        end
  end.

Fixpoint insert_index (x : N * string) (l : list (N * string)) : list (N * string) :=
  match l with
  | [] => [x]
  | y :: l' => if (fst x <=? fst y)%N then x :: l else y :: insert_index x l'
  end.

Definition sort_indices (l : list (N * string)) : list (N * string) :=
  fold_right insert_index [] l.

Definition index_keys (keys : list string) : list (N * string) :=
  flat_map (fun k => match array_index k with
                     | Some i => [(i, k)]
                     | None => []
                     end) keys.

Definition other_keys (keys : list string) : list string :=
  List.filter (fun k => match array_index k with
                        | Some _ => false
                        | None => true
                        end) keys.

Definition Object_keys {V : Type} (props : list (string * V)) : list string :=
  map snd (sort_indices (index_keys (map fst props))) ++ other_keys (map fst props).

(** ** mapToObject, formToObject *)

Definition mapToObject (data : MapData) : list (string * JSValue) :=
  Object_fromEntries (Map_entries data).

Inductive ObjectOutcome : Type :=
  | ThrewObject (message : string)
  | ReturnedObject (props : list (string * JSValue)) (σ : heap)
  | OutOfFuelObject.

Definition formToObject (form : Argument) (opts : IFormToSerializableOptions)
    (σ : heap) : ObjectOutcome :=
  match formToMap form opts σ with
  | Threw message => ThrewObject message
  | Returned data σ' => ReturnedObject (mapToObject data) σ'
  | OutOfFuel => OutOfFuelObject
  end.

(** ** formById and the wrappers by identifier

    The document: its elements in tree order, each a form or another
    element, with its id attribute.  An element whose id attribute is
    absent or empty has no ID. *)
Inductive DocumentElement : Type :=
  | FormElement (id_attr : option string) (f : HTMLFormElement)
  | OtherElement (id_attr : option string) (e : Element).

Definition element_ID (d : DocumentElement) : option string :=
  match d with
  | FormElement (Some id) _ | OtherElement (Some id) _ =>
      if String.eqb id "" then None else Some id
  | _ => None
  end.

Definition has_ID (id : string) (d : DocumentElement) : bool :=
  match element_ID d with
  | Some id' => String.eqb id' id
  | None => false
  end.

(** [document.getElementById(id)]: the first element in tree order with
    that ID, or null. *)
Definition getElementById (document : list DocumentElement) (id : string)
    : Argument :=
  match List.find (has_ID id) document with
  | Some (FormElement _ f) => ArgForm f
  | Some (OtherElement _ e) => ArgElement e
  | None => ArgNull
  end.

Definition formById (document : list DocumentElement) (formId : string) : Argument :=
  getElementById document formId.

Definition formToMapById (document : list DocumentElement) (formId : string)
    (opts : IFormToSerializableOptions) (σ : heap) : Outcome :=
  formToMap (formById document formId) opts σ.

Definition formToObjectById (document : list DocumentElement) (formId : string)
    (opts : IFormToSerializableOptions) (σ : heap) : ObjectOutcome :=
  formToObject (formById document formId) opts σ.

(** ** formDataToObject

    A [FormData] is its entry list; an entry value is a string or a
    file, the file given by the location of its object. *)
Inductive FormDataEntryValue : Type :=
  | EntryString (s : string)
  | EntryFile (file : loc).

Abbreviation FormData := (list (string * FormDataEntryValue)).

Definition FormData_keys (fd : FormData) : list string := map fst fd.

Definition FormData_getAll (fd : FormData) (key : string) : list FormDataEntryValue :=
  map snd (List.filter (fun e => String.eqb (fst e) key) fd).

Definition FormData_get (fd : FormData) (key : string) : option FormDataEntryValue :=
  match List.find (fun e => String.eqb (fst e) key) fd with
  | Some e => Some (snd e)
  | None => None
  end.

(** A property value of the resulting object: what [fd.get] returns (an
    entry value or null), or the array [fd.getAll] returns. *)
Inductive FormDataObjectValue : Type :=
  | OneValue (v : option FormDataEntryValue)
  | AllValues (vs : list FormDataEntryValue).

Definition formDataToObject (fd : FormData) : list (string * FormDataObjectValue) :=
  Object_fromEntries
    (map (fun key =>
            let fdAll := FormData_getAll fd key in
            (key, if (1 <? length fdAll)%nat then AllValues fdAll
                  else OneValue (FormData_get fd key)))
         (FormData_keys fd)).

(** ** The same call in another store

    [shift n] moves a reference [n] locations up; [relocate n] does so
    for every entry of a Map. *)
Definition shift (n : nat) (v : JSValue) : JSValue :=
  match v with
  | VJson (JRef l) => VJson (JRef (n + l))
  | _ => v
  end.

Definition relocate (n : nat) (data : MapData) : MapData :=
  map (fun slot => match slot with
                   | Some (k, v) => Some (k, shift n v)
                   | None => None
                   end) data.

(** Every reference held by the Map points to an array of the store. *)
Definition points_to_arrays (data : MapData) (σ : heap) : Prop :=
  forall k l, Map_get k data = VJson (JRef l) -> exists elems, σ !! l = Some (OArray elems).

(** A seed none of whose values is an array or an object. *)
Definition ref_free (seed : option IFormAppend) : Prop :=
  forall k l, ~ In (k, JRef l) (seed_list seed).

(** * Properties *)

Example scenario_result :
  formToMap (ArgForm scenario_form) no_options [] =
  Returned
    [ Some ("a", VJson (JStr "1")); Some ("tags", VJson (JRef 0));
      Some ("flag", VJson JNull) ]
    [ OArray [VJson (JStr "t1"); VJson (JStr "t2")] ].
Proof. reflexivity. Qed.

Example scenario_fruits :
  formToMap (ArgForm {| descendants := [select_multiple "fruits" ["apple"; "banana"]] |})
    no_options [] =
  Returned [ Some ("fruits", VJson (JRef 0)) ]
           [ OArray [VJson (JStr "apple"); VJson (JStr "banana")] ].
Proof. reflexivity. Qed.

Example scenario_seeds :
  formToMap (ArgForm {| descendants := [text_input "a" "x"] |})
    {| mutator := None;
       prepend := Some (SeedObject [("src", JStr "form")]);
       append := Some (SeedObject [("done", JBool true)]) |} [] =
  Returned [ Some ("src", VJson (JStr "form")); Some ("a", VJson (JStr "x"));
             Some ("done", VJson (JBool true)) ] [].
Proof. reflexivity. Qed.

(** An array handed in by the caller is extended in place: the seed's
    array at location 0 receives the field's value. *)
Example push_reaches_seeded_array :
  formToMap (ArgForm {| descendants := [text_input "tags" "t1"] |})
    {| mutator := None; prepend := Some (SeedObject [("tags", JRef 0)]);
       append := None |}
    [OArray [VJson (JStr "p")]] =
  Returned [Some ("tags", VJson (JRef 0))]
           [OArray [VJson (JStr "p"); VJson (JStr "t1")]].
Proof. reflexivity. Qed.

(** Two custom controls returning the same array: pushing under one name
    shows under the other. *)
Example push_shows_under_both_names :
  formToMap
    (ArgForm {| descendants :=
                  [ custom_control (text_input "x" "") (VJson (JRef 0));
                    custom_control (text_input "y" "") (VJson (JRef 0));
                    text_input "y" "more" ] |})
    no_options [OArray [VJson (JStr "a")]] =
  Returned [Some ("x", VJson (JRef 0)); Some ("y", VJson (JRef 0))]
           [OArray [VJson (JStr "a"); VJson (JStr "more")]].
Proof. reflexivity. Qed.

(** A Map iterated while its entries are deleted: the slots stay. *)
Example forEach_while_deleting :
  Map_forEach 2 (fun _ k st => (Map_delete k (fst st), snd st)) 0
    ([Some ("a", VJson JNull); Some ("b", VJson JNull)], tt) =
  Some ([None; None], tt).
Proof. reflexivity. Qed.

(** ** The Map operations *)

Section MapFacts.

Implicit Types (k : string) (v : JSValue) (m : MapData).

Lemma Map_get_set k k' v m :
  Map_get k' (Map_set k v m) = if String.eqb k k' then v else Map_get k' m.
Proof.
  induction m as [|[[k0 v0]|] m IH]; simpl.
  - reflexivity.
  - destruct (String.eqb k0 k) eqn:E0; simpl.
    + apply String.eqb_eq in E0; subst k0.
      destruct (String.eqb k k'); reflexivity.
    + destruct (String.eqb k0 k') eqn:E1; [|exact IH].
      apply String.eqb_eq in E1; subst k0.
      rewrite String.eqb_sym, E0. reflexivity.
  - exact IH.
Qed.

Lemma Map_get_set_eq k v m : Map_get k (Map_set k v m) = v.
Proof. rewrite Map_get_set, String.eqb_refl. reflexivity. Qed.

Lemma Map_get_set_ne k k' v m :
  k <> k' -> Map_get k' (Map_set k v m) = Map_get k' m.
Proof.
  intros Hne. rewrite Map_get_set.
  apply String.eqb_neq in Hne. rewrite Hne. reflexivity.
Qed.

Lemma Map_entries_app m1 m2 :
  Map_entries (m1 ++ m2) = Map_entries m1 ++ Map_entries m2.
Proof.
  induction m1 as [|[e|] m1 IH]; simpl; [reflexivity | f_equal; exact IH | exact IH].
Qed.

Lemma Map_entries_set_In k v m k' v' :
  In (k', v') (Map_entries (Map_set k v m)) ->
  (k' = k /\ v' = v) \/ In (k', v') (Map_entries m).
Proof.
  induction m as [|[[k0 v0]|] m IH]; simpl.
  - intros [H|[]]. inversion H. left. split; reflexivity.
  - destruct (String.eqb k0 k) eqn:E0; simpl.
    + apply String.eqb_eq in E0; subst k0.
      intros [H|H]; [inversion H; left; split; reflexivity | right; right; exact H].
    + intros [H|H]; [right; left; exact H|].
      destruct (IH H) as [H'|H']; [left; exact H' | right; right; exact H'].
  - exact IH.
Qed.

Lemma Map_entries_get k m :
  Map_get k m <> VUndefined -> In (k, Map_get k m) (Map_entries m).
Proof.
  induction m as [|[[k0 v0]|] m IH]; simpl.
  - intros H. contradiction.
  - destruct (String.eqb k0 k) eqn:E0.
    + apply String.eqb_eq in E0; subst k0. intros _. left. reflexivity.
    + intros H. right. apply IH, H.
  - exact IH.
Qed.

Lemma Map_set_app_fresh k v m1 m2 :
  ~ In k (Map_keys m1) -> Map_set k v (m1 ++ m2) = m1 ++ Map_set k v m2.
Proof.
  unfold Map_keys.
  induction m1 as [|[[k0 v0]|] m1 IH]; simpl; intros Hnot.
  - reflexivity.
  - destruct (String.eqb k0 k) eqn:E0.
    + apply String.eqb_eq in E0. exfalso. apply Hnot. left. exact E0.
    + f_equal. apply IH. intros H. apply Hnot. right. exact H.
  - f_equal. apply IH, Hnot.
Qed.

Lemma Map_delete_app_fresh k m1 m2 :
  ~ In k (Map_keys m1) -> Map_delete k (m1 ++ m2) = m1 ++ Map_delete k m2.
Proof.
  unfold Map_keys.
  induction m1 as [|[[k0 v0]|] m1 IH]; simpl; intros Hnot.
  - reflexivity.
  - destruct (String.eqb k0 k) eqn:E0.
    + apply String.eqb_eq in E0. exfalso. apply Hnot. left. exact E0.
    + f_equal. apply IH. intros H. apply Hnot. right. exact H.
  - f_equal. apply IH, Hnot.
Qed.

Lemma Map_keys_set k v m :
  Map_keys (Map_set k v m) =
  if Map_has k m then Map_keys m else Map_keys m ++ [k].
Proof.
  unfold Map_keys.
  induction m as [|[[k0 v0]|] m IH]; simpl.
  - reflexivity.
  - destruct (String.eqb k0 k) eqn:E0; simpl.
    + reflexivity.
    + rewrite IH. destruct (Map_has k m); reflexivity.
  - exact IH.
Qed.

Lemma Map_has_keys k m : Map_has k m = true <-> In k (Map_keys m).
Proof.
  unfold Map_keys.
  induction m as [|[[k0 v0]|] m IH]; simpl.
  - split; [discriminate | intros []].
  - destruct (String.eqb k0 k) eqn:E0.
    + apply String.eqb_eq in E0. split; [intros _; left; exact E0 | reflexivity].
    + apply String.eqb_neq in E0. rewrite IH. split; [intros H; right; exact H|].
      intros [H|H]; [contradiction | exact H].
  - exact IH.
Qed.

Lemma Map_set_NoDup k v m : NoDup (Map_keys m) -> NoDup (Map_keys (Map_set k v m)).
Proof.
  intros Hnd. rewrite Map_keys_set.
  destruct (Map_has k m) eqn:E; [exact Hnd|].
  apply NoDup_app. split; [exact Hnd|]. split.
  - intros x Hx Hin. apply list_elem_of_In in Hx.
    apply list_elem_of_In in Hin. destruct Hin as [<-|[]].
    apply Map_has_keys in Hx. congruence.
  - apply NoDup_singleton.
Qed.

End MapFacts.

(** ** The mutator pass *)

Lemma strict_equal_true a b : strict_equal a b = true -> a = b.
Proof.
  destruct a as [|[| x | x | x | x]], b as [|[| y | y | y | y]]; simpl;
    try discriminate; try reflexivity; intros H.
  - apply Bool.eqb_prop in H. congruence.
  - apply Z.eqb_eq in H. congruence.
  - apply String.eqb_eq in H. congruence.
  - apply Nat.eqb_eq in H. congruence.
Qed.

Lemma Map_keys_app (m1 m2 : MapData) :
  Map_keys (m1 ++ m2) = Map_keys m1 ++ Map_keys m2.
Proof. unfold Map_keys. rewrite Map_entries_app. apply map_app. Qed.

Lemma NoDup_keys_middle (pre rest : MapData) k v :
  NoDup (Map_keys (pre ++ Some (k, v) :: rest)) ->
  ~ In k (Map_keys pre) /\
  NoDup (Map_keys (pre ++ None :: rest)) /\
  forall v', NoDup (Map_keys (pre ++ Some (k, v') :: rest)).
Proof.
  rewrite !Map_keys_app. intros Hnd.
  apply NoDup_app in Hnd as (Hpre & Hdisj & Hrest).
  change (Map_keys (Some (k, v) :: rest)) with (k :: Map_keys rest) in *.
  change (Map_keys (None :: rest)) with (Map_keys rest).
  apply NoDup_cons in Hrest as [Hk Hrest].
  split; [|split].
  - intros Hin. apply list_elem_of_In in Hin.
    apply (Hdisj k Hin). left.
  - apply NoDup_app. split; [exact Hpre|]. split; [|exact Hrest].
    intros x Hx Hx'. apply (Hdisj x Hx). right. exact Hx'.
  - intros v'. rewrite Map_keys_app.
    change (Map_keys (Some (k, v') :: rest)) with (k :: Map_keys rest).
    apply NoDup_app. split; [exact Hpre|]. split; [exact Hdisj|].
    apply NoDup_cons. split; assumption.
Qed.

Lemma Map_delete_here (pre rest : MapData) k v :
  ~ In k (Map_keys pre) ->
  Map_delete k (pre ++ Some (k, v) :: rest) = pre ++ None :: rest.
Proof.
  intros H. rewrite Map_delete_app_fresh by exact H.
  simpl. rewrite String.eqb_refl. reflexivity.
Qed.

Lemma Map_set_here (pre rest : MapData) k v v' :
  ~ In k (Map_keys pre) ->
  Map_set k v' (pre ++ Some (k, v) :: rest) = pre ++ Some (k, v') :: rest.
Proof.
  intros H. rewrite Map_set_app_fresh by exact H.
  simpl. rewrite String.eqb_refl. reflexivity.
Qed.

Lemma Map_forEach_step {S : Type} fuel
    (cb : JSValue -> string -> MapData * S -> MapData * S) index st :
  Map_forEach (Datatypes.S fuel) cb index st =
  if (length (fst st) <=? index)%nat then Some st
  else match fst st !! index with
       | Some (Some (k, v)) => Map_forEach fuel cb (Datatypes.S index) (cb v k st)
       | _ => Map_forEach fuel cb (Datatypes.S index) st
       end.
Proof. reflexivity. Qed.

Lemma mutate_entry_unfold mu v k (data : MapData) (σ : heap) :
  mutate_entry mu v k (data, σ) =
  (if strict_equal (fst (mu k v σ)) VUndefined then Map_delete k data
   else if negb (strict_equal (fst (mu k v σ)) v) then Map_set k (fst (mu k v σ)) data
   else data, snd (mu k v σ)).
Proof.
  unfold mutate_entry. destruct (mu k v σ) as [newValue σ']. simpl.
  destruct (strict_equal newValue VUndefined); [reflexivity|].
  destruct (negb (strict_equal newValue v)); reflexivity.
Qed.

(** With unique keys, the running [forEach] of the mutator callback
    handles the slots from [index] on exactly as [mutate_slots] does, and
    one unit of fuel per slot is enough. *)
Lemma Map_forEach_mutate mu (suf : MapData) :
  forall (pre : MapData) (σ : heap) (fuel : nat),
    NoDup (Map_keys (pre ++ suf)) ->
    length suf <= fuel ->
    Map_forEach fuel (mutate_entry mu) (length pre) (pre ++ suf, σ) =
    Some (pre ++ fst (mutate_slots mu suf σ), snd (mutate_slots mu suf σ)).
Proof.
  induction suf as [|slot rest IH]; intros pre σ fuel Hnd Hfuel.
  - assert (Hend : (length (pre ++ []) <=? length pre)%nat = true).
    { apply Nat.leb_le. rewrite app_nil_r. lia. }
    destruct fuel; simpl; rewrite Hend; reflexivity.
  - destruct fuel as [|fuel]; [simpl in Hfuel; lia|].
    assert (Hin : (length (pre ++ slot :: rest) <=? length pre)%nat = false).
    { apply Nat.leb_gt. rewrite length_app. simpl. lia. }
    simpl in Hfuel. rewrite Map_forEach_step. cbn [fst]. rewrite Hin.
    rewrite list_lookup_middle by reflexivity.
    destruct slot as [[k v]|].
    + destruct (NoDup_keys_middle _ _ _ _ Hnd) as (Hfresh & HndNone & HndSome).
      rewrite mutate_entry_unfold. simpl mutate_slots.
      destruct (mu k v σ) as [newValue σ1] eqn:Emu. simpl fst. simpl snd.
      destruct (strict_equal newValue VUndefined) eqn:Eundef.
      * rewrite Map_delete_here by exact Hfresh.
        next_slot IH; [| exact HndNone | lia].
        destruct (mutate_slots mu rest σ1) as [rest' σ']. simpl.
        rewrite <- app_assoc. reflexivity.
      * destruct (strict_equal newValue v) eqn:Esame; simpl negb; cbv iota.
        -- apply strict_equal_true in Esame. subst newValue.
           next_slot IH; [| exact Hnd | lia].
           destruct (mutate_slots mu rest σ1) as [rest' σ']. simpl.
           rewrite <- app_assoc. reflexivity.
        -- rewrite Map_set_here by exact Hfresh.
           next_slot IH; [| apply HndSome | lia].
           destruct (mutate_slots mu rest σ1) as [rest' σ']. simpl.
           rewrite <- app_assoc. reflexivity.
    + simpl mutate_slots.
      next_slot IH; [| exact Hnd | lia].
      destruct (mutate_slots mu rest σ) as [rest' σ']. simpl.
      rewrite <- app_assoc. reflexivity.
Qed.

Lemma mutate_slots_entries mu (m : MapData) :
  forall σ,
    Map_entries (fst (mutate_slots mu m σ)) = fst (mutate_entries mu (Map_entries m) σ)
    /\ snd (mutate_slots mu m σ) = snd (mutate_entries mu (Map_entries m) σ).
Proof.
  induction m as [|[[k v]|] m IH]; intros σ; simpl.
  - split; reflexivity.
  - destruct (mu k v σ) as [newValue σ1].
    destruct (IH σ1) as [IH1 IH2].
    destruct (mutate_slots mu m σ1) as [rest' σ'].
    destruct (mutate_entries mu (Map_entries m) σ1) as [es' σ''].
    simpl in *. subst σ''. split; [|reflexivity].
    destruct newValue as [|[]]; simpl; first [exact IH1 | f_equal; exact IH1].
  - destruct (IH σ) as [IH1 IH2].
    destruct (mutate_slots mu m σ) as [rest' σ']. simpl in *.
    split; assumption.
Qed.

(** ** Unique keys throughout the call *)

Lemma fold_left_invariant {A B : Type} (P : A -> Prop) (f : A -> B -> A) (l : list B) :
  (forall a x, In x l -> P a -> P (f a x)) ->
  forall a, P a -> P (fold_left f l a).
Proof.
  induction l as [|x l IH]; simpl; intros Hstep a Ha.
  - exact Ha.
  - apply IH.
    + intros a' x' Hx'. apply Hstep. right. exact Hx'.
    + apply Hstep; [left; reflexivity | exact Ha].
Qed.

Lemma apply_seed_NoDup seed (data : MapData) :
  NoDup (Map_keys data) -> NoDup (Map_keys (apply_seed seed data)).
Proof.
  destruct seed as [s|]; simpl; [|trivial].
  apply (fold_left_invariant (fun d : MapData => NoDup (Map_keys d))).
  intros d kv _. apply Map_set_NoDup.
Qed.

Lemma merge_NoDup childName childValue (st : MapData * heap) :
  NoDup (Map_keys (fst st)) -> NoDup (Map_keys (fst (merge childName childValue st))).
Proof.
  destruct st as [data σ]. unfold merge. simpl. intros Hnd.
  repeat match goal with
         | |- context [if ?b then _ else _] => destruct b
         end; simpl; try exact Hnd; apply Map_set_NoDup, Hnd.
Qed.

Lemma walk_step_NoDup (st : MapData * heap) child :
  NoDup (Map_keys (fst st)) -> NoDup (Map_keys (fst (walk_step st child))).
Proof.
  destruct st as [data σ]. unfold walk_step. intros Hnd.
  destruct (skipped_type child); [exact Hnd|].
  destruct (getChildValue child σ) as [childValue σ1].
  apply (merge_NoDup _ _ (data, σ1)), Hnd.
Qed.

Lemma walk_NoDup children (st : MapData * heap) :
  NoDup (Map_keys (fst st)) -> NoDup (Map_keys (fst (walk children st))).
Proof.
  unfold walk.
  apply (fold_left_invariant (fun s : MapData * heap => NoDup (Map_keys (fst s)))).
  intros a x _. apply walk_step_NoDup.
Qed.

Lemma merged_NoDup f opts σ : NoDup (Map_keys (fst (merged f opts σ))).
Proof.
  unfold merged.
  pose proof (walk_NoDup (querySelectorAll f) (apply_seed (prepend opts) [], σ)) as H.
  destruct (walk (querySelectorAll f) (apply_seed (prepend opts) [], σ)) as [data σ1].
  simpl in *. apply apply_seed_NoDup, H, apply_seed_NoDup. constructor.
Qed.

(** ** What [formToMap] returns for a form *)

Lemma formToMap_without_mutator f opts σ :
  mutator opts = None ->
  formToMap (ArgForm f) opts σ =
  Returned (fst (merged f opts σ)) (snd (merged f opts σ)).
Proof.
  intros Hmu. unfold formToMap. simpl.
  destruct (merged f opts σ) as [data σ1]. rewrite Hmu. reflexivity.
Qed.

Lemma formToMap_with_mutator f opts mu σ :
  mutator opts = Some mu ->
  formToMap (ArgForm f) opts σ =
  Returned (fst (mutate_slots mu (fst (merged f opts σ)) (snd (merged f opts σ))))
           (snd (mutate_slots mu (fst (merged f opts σ)) (snd (merged f opts σ)))).
Proof.
  intros Hmu. unfold formToMap. simpl.
  pose proof (merged_NoDup f opts σ) as Hnd.
  destruct (merged f opts σ) as [data σ1]. simpl in *. rewrite Hmu.
  pose proof (Map_forEach_mutate mu data [] σ1 (length data) Hnd (le_n _)) as Hpass.
  simpl in Hpass. rewrite Hpass. reflexivity.
Qed.

(** The call on a form always returns: the fuel handed to the pass is
    never used up, and nothing is thrown. *)
Lemma formToMap_returns f opts σ :
  exists data σ', formToMap (ArgForm f) opts σ = Returned data σ'.
Proof.
  destruct (mutator opts) as [mu|] eqn:Hmu.
  - rewrite (formToMap_with_mutator _ _ mu) by exact Hmu. eauto.
  - rewrite formToMap_without_mutator by exact Hmu. eauto.
Qed.

(** ** Input validation *)

(** C8: whatever is passed that is not an [HTMLFormElement] (undefined,
    null, a primitive, another element) makes [formToMap] throw the
    invalid-argument error, whatever the options and the store, so
    nothing is traversed and no mapping comes back; a form never yields
    that error and always returns a mapping. *)
Theorem formToMap_validates_argument :
  forall (formElement : Argument) (opts : IFormToSerializableOptions) (σ : heap),
    match formElement with
    | ArgForm f =>
        (exists data σ', formToMap formElement opts σ = Returned data σ')
        /\ formToMap formElement opts σ <> InvalidArgument
    | _ => formToMap formElement opts σ = InvalidArgument
    end.
Proof.
  intros [| | j | e | f] opts σ; try reflexivity.
  - unfold formToMap. destruct (truthy (ArgValue j)); reflexivity.
  - destruct (formToMap_returns f opts σ) as (data & σ' & H).
    split; [eauto|]. rewrite H. discriminate.
Qed.

(** ** Value extraction *)

Lemma walk_step_eligible (data : MapData) (σ : heap) child :
  skipped_type child = false ->
  walk_step (data, σ) child =
  merge (name child) (fst (getChildValue child σ)) (data, snd (getChildValue child σ)).
Proof.
  intros H. unfold walk_step. rewrite H.
  destruct (getChildValue child σ); reflexivity.
Qed.

Lemma walk_step_skipped (st : MapData * heap) child :
  skipped_type child = true -> walk_step st child = st.
Proof. intros H. destruct st. unfold walk_step. rewrite H. reflexivity. Qed.

(** C4: a control with a callable [getValue] yields exactly what the call
    returns, and the store is left alone; this holds whatever the kind,
    type, checked state or selected options of the control are, and it is
    that value which the loop merges under the control's name. *)
Theorem getValue_takes_precedence :
  forall (child : Element) (result : JSValue) (data : MapData) (σ : heap),
    getValue child = Some (Function result) ->
    getChildValue child σ = (result, σ)
    /\ (skipped_type child = false ->
        walk_step (data, σ) child = merge (name child) result (data, σ)).
Proof.
  intros child result data σ Hget.
  assert (H : getChildValue child σ = (result, σ)).
  { unfold getChildValue, callable_getValue. rewrite Hget. reflexivity. }
  split; [exact H|].
  intros Hskip. rewrite walk_step_eligible by exact Hskip. rewrite H. reflexivity.
Qed.

(** C4 on an unchecked checkbox carrying [getValue() { return {n: 1} }];
    the object sits at location 0. *)
Lemma getValue_takes_precedence_witness :
  let child := custom_control (checkbox "c" "on" false) (VJson (JRef 0)) in
  let σ := [ORecord [("n", VJson (JNum 1))]] in
  getChildValue child σ = (VJson (JRef 0), σ)
  /\ walk_step ([], σ) child = ([Some ("c", VJson (JRef 0))], σ).
Proof.
  intros child σ.
  destruct (getValue_takes_precedence child (VJson (JRef 0)) [] σ eq_refl) as [H1 H2].
  split; [exact H1|]. rewrite (H2 eq_refl). reflexivity.
Defined.

(** ** Keys and values of the merged Map *)

Lemma entries_within_set K (data : MapData) k v :
  entries_within K data -> In k K -> v <> VUndefined ->
  entries_within K (Map_set k v data).
Proof.
  intros Hin Hk Hv k' v' H.
  destruct (Map_entries_set_In _ _ _ _ _ H) as [[-> ->]|H']; [split; assumption|].
  apply Hin, H'.
Qed.

Lemma not_nullish_defined v : is_nullish v = false -> v <> VUndefined.
Proof. intros H ->. discriminate. Qed.

Lemma merge_entries_within K childName childValue (st : MapData * heap) :
  entries_within K (fst st) -> In childName K -> childValue <> VUndefined ->
  entries_within K (fst (merge childName childValue st)).
Proof.
  destruct st as [data σ]. unfold merge. simpl. intros Hin Hk Hv.
  destruct (is_nullish (Map_get childName data)) eqn:Eprev; simpl.
  { apply entries_within_set; assumption. }
  destruct (is_nullish childValue); simpl; [exact Hin|].
  destruct (Array_isArray σ (Map_get childName data)); simpl.
  - apply entries_within_set; [assumption | assumption |].
    apply not_nullish_defined, Eprev.
  - apply entries_within_set; [assumption | assumption | discriminate].
Qed.

Lemma getChildValue_defined child σ :
  (forall r, getValue child = Some (Function r) -> r <> VUndefined) ->
  fst (getChildValue child σ) <> VUndefined.
Proof.
  intros Hget. unfold getChildValue, callable_getValue.
  destruct (getValue child) as [[r|r]|] eqn:E; simpl;
    try (apply Hget; reflexivity);
    destruct (kind child), (multiple child); simpl;
    destruct (isInputCheckable child); simpl;
    try destruct (checked child); discriminate.
Qed.

Lemma apply_seed_entries_within K seed (data : MapData) :
  (forall k, In k (seed_keys seed) -> In k K) ->
  entries_within K data -> entries_within K (apply_seed seed data).
Proof.
  destruct seed as [s|]; simpl; [|trivial]. intros HK.
  apply (fold_left_invariant (entries_within K)).
  intros d [k j] Hkj Hd. apply entries_within_set; [exact Hd | | discriminate].
  apply HK. simpl. apply in_map_iff. exists (k, j). split; [reflexivity | exact Hkj].
Qed.

Lemma querySelectorAll_walked f child :
  In child (querySelectorAll f) -> skipped_type child = false -> In child (walked f).
Proof.
  unfold querySelectorAll, walked, eligible. intros Hin Hskip.
  apply filter_In in Hin as [Hin Hsel]. apply filter_In.
  split; [exact Hin|]. rewrite Hsel, Hskip. reflexivity.
Qed.

Lemma merged_entries_within f opts σ :
  (forall c r, In c (walked f) -> getValue c = Some (Function r) -> r <> VUndefined) ->
  entries_within (result_keys f opts) (fst (merged f opts σ)).
Proof.
  intros Hget. unfold merged.
  assert (Hwalk : entries_within (result_keys f opts)
            (fst (walk (querySelectorAll f) (apply_seed (prepend opts) [], σ)))).
  { unfold walk.
    apply (fold_left_invariant
             (fun st : MapData * heap => entries_within (result_keys f opts) (fst st))).
    - intros [data σ0] c Hc Hst.
      destruct (skipped_type c) eqn:Hskip.
      + rewrite walk_step_skipped by exact Hskip. exact Hst.
      + rewrite walk_step_eligible by exact Hskip.
        pose proof (querySelectorAll_walked f c Hc Hskip) as Hw.
        apply (merge_entries_within _ _ _ (data, _)); [exact Hst | |].
        * unfold result_keys. apply in_or_app. right. apply in_or_app. left.
          apply in_map. exact Hw.
        * apply getChildValue_defined. intros r. apply Hget, Hw.
    - simpl. apply apply_seed_entries_within.
      + intros k Hk. unfold result_keys. apply in_or_app. left. exact Hk.
      + intros k v []. }
  destruct (walk (querySelectorAll f) (apply_seed (prepend opts) [], σ)) as [data σ1].
  simpl in *. apply apply_seed_entries_within; [|exact Hwalk].
  intros k Hk. unfold result_keys. apply in_or_app. right. apply in_or_app. right. exact Hk.
Qed.

Lemma mutate_entries_In mu (es : list (string * JSValue)) :
  forall σ k v,
    In (k, v) (fst (mutate_entries mu es σ)) -> In k (map fst es) /\ v <> VUndefined.
Proof.
  induction es as [|[k0 v0] es IH]; intros σ k v; simpl; [intros []|].
  destruct (mu k0 v0 σ) as [nv σ1]. specialize (IH σ1 k v).
  destruct (mutate_entries mu es σ1) as [rest' σ']. simpl in *.
  destruct nv as [|j]; simpl.
  - intros H. destruct (IH H). split; [right|]; assumption.
  - intros [H|H].
    + inversion H; subst. split; [left; reflexivity | discriminate].
    + destruct (IH H). split; [right|]; assumption.
Qed.

(** ** The mutator pass of [formToMap] *)

Lemma mutate_slots_identity (m : MapData) (σ : heap) :
  (forall k v, In (k, v) (Map_entries m) -> v <> VUndefined) ->
  mutate_slots identity_mutator m σ = (m, σ).
Proof.
  induction m as [|[[k v]|] m IH]; simpl; intros Hdef.
  - reflexivity.
  - rewrite IH by (intros k' v' H; apply (Hdef k' v'); right; exact H).
    destruct v as [|[]]; try reflexivity.
    exfalso. apply (Hdef k VUndefined); [left|]; reflexivity.
  - rewrite IH by exact Hdef. reflexivity.
Qed.

Lemma mutate_entries_deleting (es : list (string * JSValue)) (σ : heap) :
  mutate_entries deleting_mutator es σ = ([], σ).
Proof.
  induction es as [|[k v] es IH]; simpl; [reflexivity|].
  rewrite IH. reflexivity.
Qed.

Lemma mutate_entries_recording (es : list (string * JSValue)) :
  forall σ : heap,
    mutate_entries recording_deleting_mutator es σ =
    ([], σ ++ map (fun e => ORecord [e]) es).
Proof.
  induction es as [|[k v] es IH]; intros σ; simpl.
  - rewrite app_nil_r. reflexivity.
  - rewrite IH, <- app_assoc. reflexivity.
Qed.

Lemma formToMap_mutated f opts mu σ :
  mutator opts = Some mu ->
  exists data',
    formToMap (ArgForm f) opts σ =
      Returned data'
        (snd (mutate_entries mu (Map_entries (fst (merged f opts σ))) (snd (merged f opts σ))))
    /\ Map_entries data' =
       fst (mutate_entries mu (Map_entries (fst (merged f opts σ))) (snd (merged f opts σ)))
    /\ length data' = length (fst (merged f opts σ)).
Proof.
  intros Hmu. rewrite (formToMap_with_mutator f opts mu σ Hmu).
  destruct (mutate_slots_entries mu (fst (merged f opts σ)) (snd (merged f opts σ)))
    as [H1 H2].
  eexists. split; [rewrite <- H2; reflexivity|]. split; [exact H1|].
  generalize (snd (merged f opts σ)). generalize (fst (merged f opts σ)).
  clear. intros m. induction m as [|[[k v]|] m IH]; intros σ; simpl.
  - reflexivity.
  - destruct (mu k v σ) as [nv σ1]. specialize (IH σ1).
    destruct (mutate_slots mu m σ1). simpl in *. f_equal. exact IH.
  - specialize (IH σ). destruct (mutate_slots mu m σ). simpl in *. f_equal. exact IH.
Qed.

Lemma merged_with_mutator mu f opts σ :
  merged f (with_mutator mu opts) σ = merged f opts σ.
Proof. reflexivity. Qed.

(** C7, as amended: when no [getValue] of a walked control returns
    undefined, the call with the identity as mutator returns exactly the
    Map and store it returns without a mutator, that is the Map as it
    stood after the append step, slot for slot; with a mutator that
    always returns undefined the returned Map shows no entry; and when
    that mutator also records its calls, the record is the list of the
    entries present when the pass began, each once and in order,
    although every call deleted an entry while the pass was running. *)
Theorem mutator_laws :
  forall (f : HTMLFormElement) (opts : IFormToSerializableOptions) (σ : heap),
    let before := merged f opts σ in
    formToMap (ArgForm f) (with_mutator None opts) σ = Returned (fst before) (snd before)
    /\ ((forall c r, In c (walked f) -> getValue c = Some (Function r) -> r <> VUndefined) ->
        formToMap (ArgForm f) (with_mutator (Some identity_mutator) opts) σ =
        Returned (fst before) (snd before))
    /\ (exists data',
          formToMap (ArgForm f) (with_mutator (Some deleting_mutator) opts) σ =
            Returned data' (snd before)
          /\ Map_entries data' = [])
    /\ (exists data',
          formToMap (ArgForm f) (with_mutator (Some recording_deleting_mutator) opts) σ =
            Returned data'
              (snd before ++ map (fun e => ORecord [e]) (Map_entries (fst before)))
          /\ Map_entries data' = []).
Proof.
  intros f opts σ before. subst before. repeat split.
  - rewrite formToMap_without_mutator by reflexivity. reflexivity.
  - intros Hget.
    rewrite (formToMap_with_mutator _ _ identity_mutator) by reflexivity.
    rewrite merged_with_mutator, mutate_slots_identity; [reflexivity|].
    intros k v H. apply (merged_entries_within f opts σ Hget k v H).
  - destruct (formToMap_mutated f (with_mutator (Some deleting_mutator) opts)
                deleting_mutator σ eq_refl) as (data' & H1 & H2 & _).
    rewrite merged_with_mutator, mutate_entries_deleting in *.
    exists data'. split; assumption.
  - destruct (formToMap_mutated f (with_mutator (Some recording_deleting_mutator) opts)
                recording_deleting_mutator σ eq_refl) as (data' & H1 & H2 & _).
    rewrite merged_with_mutator, mutate_entries_recording in *.
    exists data'. split; assumption.
Qed.

(** C7, the claim as stated fails: a control whose [getValue] returns
    undefined leaves an entry that the identity mutator hands back as
    undefined, and the pass deletes it. *)
Lemma identity_mutator_deletes_undefined :
  let f := {| descendants := [custom_control (text_input "a" "x") VUndefined] |} in
  formToMap (ArgForm f) (with_mutator None no_options) [] =
    Returned [Some ("a", VUndefined)] []
  /\ formToMap (ArgForm f) (with_mutator (Some identity_mutator) no_options) [] =
     Returned [None] []
  /\ Map_entries [Some ("a", VUndefined)] <> Map_entries [None].
Proof.
  repeat split. discriminate.
Qed.

(** C7, as amended, on the sample form. *)
Lemma mutator_laws_witness :
  formToMap (ArgForm scenario_form) (with_mutator (Some identity_mutator) no_options) [] =
  formToMap (ArgForm scenario_form) (with_mutator None no_options) [].
Proof.
  destruct (mutator_laws scenario_form no_options []) as (H1 & H2 & _).
  rewrite H1. apply H2.
  intros c r [<-|[<-|[<-|[<-|[]]]]]; discriminate.
Defined.

Lemma mutate_entries_pure g (es : list (string * JSValue)) (σ : heap) :
  mutate_entries (pure_mutator g) es σ = (flat_map (mutated_entry g) es, σ).
Proof.
  induction es as [|[k v] es IH]; simpl; [reflexivity|].
  rewrite IH. unfold mutated_entry. simpl.
  destruct (g k v); reflexivity.
Qed.

(** C10: with a mutator, what [formToMap] returns shows the entries of
    the merged Map in their order, each handed to the mutator once: an
    entry for which the mutator returns undefined is gone, every other
    entry keeps its key and place and carries the returned value, null
    included; no slot is added to the Map.  For a mutator that leaves the
    store alone this is the list of entries with each one replaced by
    what [mutated_entry] makes of it. *)
Theorem mutator_sentinel_is_undefined :
  forall (f : HTMLFormElement) (opts : IFormToSerializableOptions) (σ : heap),
    let before := merged f opts σ in
    (forall mu : IFormMapMutatorFunction,
        exists data',
          formToMap (ArgForm f) (with_mutator (Some mu) opts) σ =
            Returned data' (snd (mutate_entries mu (Map_entries (fst before)) (snd before)))
          /\ Map_entries data'
             = fst (mutate_entries mu (Map_entries (fst before)) (snd before))
          /\ length data' = length (fst before))
    /\ (forall g : string -> JSValue -> JSValue,
          exists data',
            formToMap (ArgForm f) (with_mutator (Some (pure_mutator g)) opts) σ =
              Returned data' (snd before)
            /\ Map_entries data' = flat_map (mutated_entry g) (Map_entries (fst before))).
Proof.
  intros f opts σ before. subst before. split.
  - intros mu.
    destruct (formToMap_mutated f (with_mutator (Some mu) opts) mu σ eq_refl)
      as (data' & H1 & H2 & H3).
    rewrite merged_with_mutator in *. exists data'. repeat split; assumption.
  - intros g.
    destruct (formToMap_mutated f (with_mutator (Some (pure_mutator g)) opts)
                (pure_mutator g) σ eq_refl) as (data' & H1 & H2 & _).
    rewrite merged_with_mutator, mutate_entries_pure in *.
    exists data'. split; assumption.
Qed.

(** Undefined deletes, null is kept as a value, another value replaces
    in place. *)
Example mutator_on_three_fields :
  formToMap
    (ArgForm {| descendants :=
                  [text_input "a" "1"; text_input "b" "2"; text_input "c" "3"] |})
    {| mutator :=
         Some (pure_mutator (fun k v =>
                 if String.eqb k "a" then VUndefined
                 else if String.eqb k "b" then VJson JNull
                 else VJson (JStr "C")));
       prepend := None; append := None |} [] =
  Returned [None; Some ("b", VJson JNull); Some ("c", VJson (JStr "C"))] [].
Proof. reflexivity. Qed.

(** ** Which controls are walked *)

Lemma walk_contribute (l : list Element) :
  forall st : MapData * heap,
    fold_left walk_step (List.filter matches_selector l) st =
    fold_left contribute (List.filter eligible l) st.
Proof.
  induction l as [|x l IH]; intros st; simpl; [reflexivity|].
  unfold eligible at 1.
  destruct (matches_selector x); simpl; [|apply IH].
  destruct (skipped_type x) eqn:Hskip; simpl.
  - rewrite walk_step_skipped by exact Hskip. apply IH.
  - destruct st as [data σ]. rewrite walk_step_eligible by exact Hskip.
    rewrite IH. unfold contribute. simpl.
    destruct (getChildValue x σ); reflexivity.
Qed.

Lemma includes_In (l : list string) (s : string) :
  includes l s = true <-> In s l.
Proof.
  unfold includes. rewrite existsb_exists. split.
  - intros (x & Hx & Heq). apply String.eqb_eq in Heq. subst x. exact Hx.
  - intros H. exists s. split; [exact H | apply String.eqb_refl].
Qed.

(** C3, as amended: an element of the form reaches the merge, where it
    contributes its name and extracted value, exactly when it is an
    input, select or textarea that carries a name attribute (which may
    be the empty string), is not disabled, and has a type that,
    lower-cased, is none of submit, button, reset and file; the loop is
    the fold of those contributions, so every other element is passed
    over without any effect. *)
Theorem eligibility_filter :
  forall (f : HTMLFormElement) (child : Element) (st : MapData * heap),
    (In child (walked f) <->
       In child (descendants f)
       /\ kind child <> HTMLOtherElement
       /\ name_attr child <> None
       /\ disabled child = false
       /\ ~ In (toLowerCase (type child)) ["submit"; "button"; "reset"; "file"])
    /\ walk (querySelectorAll f) st = fold_left contribute (walked f) st.
Proof.
  intros f child st. split; [|apply walk_contribute].
  unfold walked, eligible, matches_selector, skipped_type.
  rewrite filter_In, !andb_true_iff, negb_true_iff.
  rewrite <- includes_In.
  destruct (kind child), (name_attr child), (disabled child),
    (includes ["submit"; "button"; "reset"; "file"] (toLowerCase (type child)));
    simpl; split; intros H; decompose [and] H; clear H;
    repeat split; try assumption; try discriminate; try congruence; auto.
Qed.

(** C3, the claim as stated fails: an enabled text input whose name
    attribute is the empty string is walked and contributes an entry
    under the empty key. *)
Lemma empty_name_is_walked :
  let child := text_input "" "x" in
  let f := {| descendants := [child] |} in
  name child = ""
  /\ disabled child = false
  /\ In child (walked f)
  /\ formToMap (ArgForm f) no_options [] = Returned [Some ("", VJson (JStr "x"))] [].
Proof.
  repeat split. left. reflexivity.
Qed.

(** ** Names that a step leaves alone *)

Lemma merge_get_other n childName childValue (st : MapData * heap) :
  childName <> n ->
  Map_get n (fst (merge childName childValue st)) = Map_get n (fst st).
Proof.
  destruct st as [data σ]. unfold merge. simpl. intros Hne.
  repeat match goal with
         | |- context [if ?b then _ else _] => destruct b
         end; simpl; try reflexivity; apply Map_get_set_ne, Hne.
Qed.

Lemma contribute_get_other n (st : MapData * heap) child :
  name child <> n ->
  Map_get n (fst (contribute st child)) = Map_get n (fst st).
Proof.
  intros Hne. unfold contribute. destruct (getChildValue child (snd st)) as [v σ1].
  apply (merge_get_other n (name child) v (fst st, σ1) Hne).
Qed.

Lemma contributions_get_other n (l : list Element) :
  forall st : MapData * heap,
    (forall c, In c l -> name c <> n) ->
    Map_get n (fst (fold_left contribute l st)) = Map_get n (fst st).
Proof.
  induction l as [|x l IH]; intros st Hne; simpl; [reflexivity|].
  rewrite IH by (intros c Hc; apply Hne; right; exact Hc).
  apply contribute_get_other, Hne. left. reflexivity.
Qed.

Lemma apply_seed_get_other n seed (data : MapData) :
  ~ In n (seed_keys seed) -> Map_get n (apply_seed seed data) = Map_get n data.
Proof.
  destruct seed as [s|]; simpl; [|reflexivity].
  generalize (seed_entries s). intros l. revert data.
  induction l as [|[k j] l IH]; intros data Hnot; simpl; [reflexivity|].
  rewrite IH by (intros H; apply Hnot; right; exact H).
  apply Map_get_set_ne. intros ->. apply Hnot. left. reflexivity.
Qed.

Lemma merged_contributions f opts σ :
  merged f opts σ =
  (apply_seed (append opts)
     (fst (fold_left contribute (walked f) (apply_seed (prepend opts) [], σ))),
   snd (fold_left contribute (walked f) (apply_seed (prepend opts) [], σ))).
Proof.
  unfold merged, walk, querySelectorAll, walked. rewrite walk_contribute.
  destruct (fold_left contribute _ _); reflexivity.
Qed.

(** ** Checkable controls *)

Lemma getChildValue_checkable child σ :
  isInputCheckable child = true ->
  callable_getValue child = None ->
  getChildValue child σ =
  ((if checked child then VJson (JStr (value child)) else VJson JNull), σ).
Proof.
  intros Hc Hg. unfold getChildValue. rewrite Hg, Hc.
  unfold isInputCheckable in Hc.
  destruct (kind child); try discriminate. reflexivity.
Qed.

Lemma merge_absent childName childValue (data : MapData) (σ : heap) :
  is_nullish (Map_get childName data) = true ->
  merge childName childValue (data, σ) = (Map_set childName childValue data, σ).
Proof. intros H. unfold merge. rewrite H. reflexivity. Qed.

(** C5: a checkbox or radio input without a callable [getValue] yields
    its value string when checked and null when unchecked, leaving the
    store alone; and when such a control is unchecked, is walked, and its
    name is carried by no other walked control and by no seed entry, the
    Map returned without a mutator holds null under that name. *)
Theorem unchecked_checkable_is_null :
  (forall (child : Element) (σ : heap),
      isInputCheckable child = true ->
      callable_getValue child = None ->
      getChildValue child σ =
      ((if checked child then VJson (JStr (value child)) else VJson JNull), σ))
  /\ (forall (before after : list Element) (u : Element)
             (opts : IFormToSerializableOptions) (σ : heap),
        eligible u = true ->
        isInputCheckable u = true ->
        callable_getValue u = None ->
        checked u = false ->
        (forall c, In c (before ++ after) -> eligible c = true -> name c <> name u) ->
        ~ In (name u) (seed_keys (prepend opts)) ->
        ~ In (name u) (seed_keys (append opts)) ->
        mutator opts = None ->
        exists data σ',
          formToMap (ArgForm {| descendants := before ++ u :: after |}) opts σ =
            Returned data σ'
          /\ Map_get (name u) data = VJson JNull
          /\ In (name u, VJson JNull) (Map_entries data)).
Proof.
  split; [exact getChildValue_checkable|].
  intros before after u opts σ Helig Hcheckable Hget Hunchecked Hother Hpre Happ Hmu.
  rewrite formToMap_without_mutator by exact Hmu.
  do 2 eexists. split; [reflexivity|].
  assert (Hval : Map_get (name u)
            (fst (merged {| descendants := before ++ u :: after |} opts σ)) = VJson JNull).
  { rewrite merged_contributions. simpl fst.
    rewrite apply_seed_get_other by exact Happ.
    unfold walked. simpl descendants.
    rewrite List.filter_app. simpl List.filter. rewrite Helig.
    rewrite fold_left_app. simpl fold_left.
    rewrite contributions_get_other.
    2:{ intros c Hc. apply filter_In in Hc as [Hc He].
        apply Hother; [apply in_or_app; right; exact Hc | exact He]. }
    set (st := fold_left contribute (List.filter eligible before)
                 (apply_seed (prepend opts) [], σ)).
    assert (Habsent : Map_get (name u) (fst st) = VUndefined).
    { subst st. rewrite contributions_get_other.
      - simpl. rewrite apply_seed_get_other by exact Hpre. reflexivity.
      - intros c Hc. apply filter_In in Hc as [Hc He].
        apply Hother; [apply in_or_app; left; exact Hc | exact He]. }
    unfold contribute.
    rewrite (getChildValue_checkable u (snd st) Hcheckable Hget), Hunchecked.
    rewrite merge_absent by (rewrite Habsent; reflexivity).
    simpl. apply Map_get_set_eq. }
  split; [exact Hval|].
  pose proof (Map_entries_get (name u)
                (fst (merged {| descendants := before ++ u :: after |} opts σ))) as Hin.
  rewrite Hval in Hin. apply Hin. discriminate.
Qed.

(** C5 on the flag of the sample form, between a seed and other fields. *)
Lemma unchecked_checkable_is_null_witness :
  exists data σ',
    formToMap
      (ArgForm {| descendants :=
                    [text_input "a" "1"; text_input "tags" "t1"]
                    ++ checkbox "flag" "on" false :: [text_input "tags" "t2"] |})
      {| mutator := None; append := None;
         prepend := Some (SeedObject [("src", JStr "form")]) |} [] =
      Returned data σ'
    /\ Map_get "flag" data = VJson JNull
    /\ In ("flag", VJson JNull) (Map_entries data).
Proof.
  apply (proj2 unchecked_checkable_is_null
           [text_input "a" "1"; text_input "tags" "t1"] [text_input "tags" "t2"]
           (checkbox "flag" "on" false)
           {| mutator := None; append := None;
              prepend := Some (SeedObject [("src", JStr "form")]) |} []);
    try reflexivity.
  - intros c [<-|[<-|[<-|[]]]] _; discriminate.
  - simpl. intros [H|[]]. discriminate.
  - simpl. intros [].
Defined.

(** ** Keys and values of the result *)

(** C6: for a form, any seeds and any mutator, provided no [getValue] of
    a walked control returns undefined, [formToMap] returns a Map in
    which every entry has a key among the prepend keys, the names of the
    walked controls and the append keys, and a value other than
    undefined. *)
Theorem result_keys_and_values :
  forall (f : HTMLFormElement) (opts : IFormToSerializableOptions) (σ : heap),
    (forall c r, In c (walked f) -> getValue c = Some (Function r) -> r <> VUndefined) ->
    exists data σ',
      formToMap (ArgForm f) opts σ = Returned data σ'
      /\ forall k v, In (k, v) (Map_entries data) ->
           (In k (seed_keys (prepend opts))
            \/ In k (map name (walked f))
            \/ In k (seed_keys (append opts)))
           /\ v <> VUndefined.
Proof.
  intros f opts σ Hget.
  pose proof (merged_entries_within f opts σ Hget) as Hin.
  assert (Hkeys : forall k, In k (result_keys f opts) ->
            In k (seed_keys (prepend opts)) \/ In k (map name (walked f))
            \/ In k (seed_keys (append opts))).
  { unfold result_keys. intros k Hk.
    apply in_app_or in Hk as [Hk|Hk]; [left; exact Hk|].
    apply in_app_or in Hk as [Hk|Hk]; [right; left | right; right]; exact Hk. }
  destruct (mutator opts) as [mu|] eqn:Hmu.
  - destruct (formToMap_mutated f opts mu σ Hmu) as (data' & H1 & H2 & _).
    do 2 eexists. split; [exact H1|].
    intros k v Hkv. rewrite H2 in Hkv.
    apply mutate_entries_In in Hkv as [Hk Hv]. split; [|exact Hv].
    apply in_map_iff in Hk as ([k' v'] & <- & Hk). apply Hkeys.
    apply (Hin k' v' Hk).
  - rewrite formToMap_without_mutator by exact Hmu.
    do 2 eexists. split; [reflexivity|].
    intros k v Hkv. destruct (Hin k v Hkv) as [Hk Hv].
    split; [apply Hkeys, Hk | exact Hv].
Qed.

(** C6 on a form with a custom control, both seeds, and a mutator that
    drops the field named a. *)
Lemma result_keys_and_values_witness :
  let f := {| descendants :=
                [ text_input "a" "1";
                  custom_control (text_input "b" "") (VJson (JNum 7));
                  checkbox "c" "on" false ] |} in
  let opts := {| mutator :=
                   Some (fun k v σ =>
                           if String.eqb k "a" then (VUndefined, σ) else (v, σ));
                 prepend := Some (SeedMap [("p", JBool true)]);
                 append := Some (SeedObject [("z", JNull)]) |} in
  exists data σ',
    formToMap (ArgForm f) opts [] = Returned data σ'
    /\ forall k v, In (k, v) (Map_entries data) ->
         (In k (seed_keys (prepend opts))
          \/ In k (map name (walked f))
          \/ In k (seed_keys (append opts)))
         /\ v <> VUndefined.
Proof.
  intros f opts. apply (result_keys_and_values f opts []).
  intros c r [<-|[<-|[<-|[]]]]; simpl; intros H; try discriminate.
  inversion H. discriminate.
Defined.

(** ** Merging over a null entry *)

Lemma Map_get_delete_ne k k' (m : MapData) :
  k <> k' -> Map_get k' (Map_delete k m) = Map_get k' m.
Proof.
  intros Hne. induction m as [|[[k0 v0]|] m IH]; simpl.
  - reflexivity.
  - destruct (String.eqb k0 k) eqn:E0; simpl.
    + apply String.eqb_eq in E0; subst k0.
      apply String.eqb_neq in Hne. rewrite Hne. reflexivity.
    + rewrite IH. reflexivity.
  - exact IH.
Qed.

Lemma Map_get_absent k (m : MapData) :
  ~ In k (Map_keys m) -> Map_get k m = VUndefined.
Proof.
  unfold Map_keys. induction m as [|[[k0 v0]|] m IH]; simpl; intros Hnot.
  - reflexivity.
  - destruct (String.eqb k0 k) eqn:E0.
    + apply String.eqb_eq in E0. exfalso. apply Hnot. left. exact E0.
    + apply IH. intros H. apply Hnot. right. exact H.
  - apply IH, Hnot.
Qed.

Lemma Map_get_delete_eq k (m : MapData) :
  NoDup (Map_keys m) -> Map_get k (Map_delete k m) = VUndefined.
Proof.
  unfold Map_keys. induction m as [|[[k0 v0]|] m IH]; simpl; intros Hnd.
  - reflexivity.
  - apply NoDup_cons in Hnd as [Hk0 Hnd].
    destruct (String.eqb k0 k) eqn:E0; simpl.
    + apply String.eqb_eq in E0; subst k0.
      apply Map_get_absent. intros H. apply Hk0, list_elem_of_In, H.
    + rewrite E0. apply IH, Hnd.
  - apply IH, Hnd.
Qed.

(** C9: when the entry under the name of a walked pair holds null, the
    merge sets the entry to the new value, whatever that value is (null,
    a scalar or a list), and touches nothing else: the store is unchanged,
    so no array is built or extended, and every lookup afterwards is what
    it would be had the entry been deleted before the merge.  This is
    what the loop does for every control that passes the type test. *)
Theorem null_entry_is_replaced :
  forall (childName : string) (childValue : JSValue) (data : MapData) (σ : heap),
    Map_get childName data = VJson JNull ->
    merge childName childValue (data, σ) = (Map_set childName childValue data, σ)
    /\ Map_get childName (fst (merge childName childValue (data, σ))) = childValue
    /\ (NoDup (Map_keys data) ->
        (forall k, Map_get k (fst (merge childName childValue (Map_delete childName data, σ)))
                   = Map_get k (fst (merge childName childValue (data, σ))))
        /\ snd (merge childName childValue (Map_delete childName data, σ))
           = snd (merge childName childValue (data, σ)))
    /\ (forall child, skipped_type child = false ->
          name child = childName ->
          getChildValue child σ = (childValue, σ) ->
          walk_step (data, σ) child = (Map_set childName childValue data, σ)).
Proof.
  intros childName childValue data σ Hnull.
  assert (Hmerge : merge childName childValue (data, σ)
                   = (Map_set childName childValue data, σ)).
  { apply merge_absent. rewrite Hnull. reflexivity. }
  rewrite Hmerge. cbn [fst snd]. repeat split.
  - apply Map_get_set_eq.
  - rewrite merge_absent by (rewrite Map_get_delete_eq by assumption; reflexivity).
    intros k. cbn [fst]. rewrite !Map_get_set.
    destruct (String.eqb childName k) eqn:E; [reflexivity|].
    apply Map_get_delete_ne. apply String.eqb_neq, E.
  - rewrite merge_absent by (rewrite Map_get_delete_eq by assumption; reflexivity).
    reflexivity.
  - intros child Hskip Hname Hval.
    rewrite walk_step_eligible by exact Hskip.
    rewrite Hval, Hname. exact Hmerge.
Qed.

(** C9 where a null entry meets the array of a multi-select with two
    options chosen, extracted to location 0. *)
Lemma null_entry_is_replaced_witness :
  let σ := [OArray [VJson (JStr "x"); VJson (JStr "y")]] in
  let data := [Some ("a", VJson (JStr "1")); Some ("n", VJson JNull)] in
  merge "n" (VJson (JRef 0)) (data, σ) =
    ([Some ("a", VJson (JStr "1")); Some ("n", VJson (JRef 0))], σ)
  /\ (forall k, Map_get k (fst (merge "n" (VJson (JRef 0)) (Map_delete "n" data, σ)))
                = Map_get k (fst (merge "n" (VJson (JRef 0)) (data, σ)))).
Proof.
  intros σ data.
  destruct (null_entry_is_replaced "n" (VJson (JRef 0)) data σ eq_refl)
    as (H1 & _ & H3 & _).
  split; [exact H1|].
  apply H3. unfold data. vm_compute.
  apply NoDup_cons. split; [|apply NoDup_singleton].
  intros H. apply list_elem_of_In in H. destruct H as [H|[]]. discriminate.
Defined.

(** ** Unchecked controls next to checked ones *)

Arguments merge : simpl never.

Lemma contribute_unfold (data : MapData) (σ : heap) child :
  contribute (data, σ) child =
  merge (name child) (fst (getChildValue child σ)) (data, snd (getChildValue child σ)).
Proof. unfold contribute. simpl. destruct (getChildValue child σ); reflexivity. Qed.

Section OneName.

(** The name [n] of the unchecked control. *)
Variable n : string.

Lemma same_up_to_null_set k v (d1 d2 : MapData) :
  same_up_to_null n d1 d2 -> same_up_to_null n (Map_set k v d1) (Map_set k v d2).
Proof.
  intros H k'. rewrite !Map_get_set.
  destruct (String.eqb k k'); [left; reflexivity | apply H].
Qed.

Lemma merge_same_up_to_null childName childValue (d1 d2 : MapData) (σ : heap) :
  same_up_to_null n d1 d2 ->
  same_up_to_null n (fst (merge childName childValue (d1, σ)))
                    (fst (merge childName childValue (d2, σ)))
  /\ snd (merge childName childValue (d1, σ)) = snd (merge childName childValue (d2, σ)).
Proof.
  intros H. destruct (H childName) as [Heq|(_ & N1 & N2)].
  - unfold merge. rewrite <- Heq.
    repeat match goal with
           | |- context [if ?b then _ else _] => destruct b
           end; simpl; split; try reflexivity; try exact H;
      apply same_up_to_null_set, H.
  - rewrite !merge_absent by assumption. simpl.
    split; [apply same_up_to_null_set, H | reflexivity].
Qed.

Lemma contributions_same_up_to_null (l : list Element) :
  forall (d1 d2 : MapData) (σ : heap),
    same_up_to_null n d1 d2 ->
    same_up_to_null n (fst (fold_left contribute l (d1, σ)))
                      (fst (fold_left contribute l (d2, σ)))
    /\ snd (fold_left contribute l (d1, σ)) = snd (fold_left contribute l (d2, σ)).
Proof.
  induction l as [|x l IH]; intros d1 d2 σ H; simpl; [split; [exact H | reflexivity]|].
  rewrite !contribute_unfold.
  destruct (getChildValue x σ) as [v σ1]. cbn [fst snd].
  destruct (merge_same_up_to_null (name x) v d1 d2 σ1 H) as [Hd Hs].
  destruct (merge (name x) v (d1, σ1)) as [d1' σ1'].
  destruct (merge (name x) v (d2, σ1)) as [d2' σ2']. cbn [fst snd] in *. subst σ2'.
  apply IH, Hd.
Qed.

Lemma apply_seed_same_lookups seed (d1 d2 : MapData) :
  (forall k, Map_get k d1 = Map_get k d2) ->
  forall k, Map_get k (apply_seed seed d1) = Map_get k (apply_seed seed d2).
Proof.
  destruct seed as [s|]; simpl; [|trivial].
  generalize (seed_entries s). intros l. revert d1 d2.
  induction l as [|[k0 j] l IH]; intros d1 d2 H; simpl; [exact H|].
  apply IH. intros k. rewrite !Map_get_set. rewrite H. reflexivity.
Qed.

(** Once an entry holds a value, no merge makes it null again. *)
Lemma merge_keeps_value childName childValue (st : MapData * heap) :
  is_nullish (Map_get n (fst st)) = false ->
  is_nullish (Map_get n (fst (merge childName childValue st))) = false.
Proof.
  destruct st as [data σ]. simpl. intros Hn.
  destruct (String.eqb childName n) eqn:E.
  - apply String.eqb_eq in E. subst childName.
    unfold merge. rewrite Hn.
    destruct (is_nullish childValue); simpl; [exact Hn|].
    destruct (Array_isArray σ (Map_get n data)); simpl; rewrite Map_get_set_eq;
      [exact Hn | reflexivity].
  - apply String.eqb_neq in E.
    rewrite (merge_get_other n childName childValue (data, σ) E). exact Hn.
Qed.

Lemma contributions_keep_value (l : list Element) :
  forall st : MapData * heap,
    is_nullish (Map_get n (fst st)) = false ->
    is_nullish (Map_get n (fst (fold_left contribute l st))) = false.
Proof.
  induction l as [|x l IH]; intros st H; simpl; [exact H|].
  apply IH. unfold contribute. destruct (getChildValue x (snd st)) as [v σ1].
  apply (merge_keeps_value (name x) v (fst st, σ1) H).
Qed.

Lemma contribute_checked (st : MapData * heap) s :
  name s = n -> isInputCheckable s = true -> callable_getValue s = None ->
  checked s = true ->
  is_nullish (Map_get n (fst (contribute st s))) = false.
Proof.
  intros Hname Hc Hg Hchecked. unfold contribute.
  rewrite (getChildValue_checkable s (snd st) Hc Hg), Hchecked, Hname.
  destruct (is_nullish (Map_get n (fst st))) eqn:E.
  - rewrite merge_absent by exact E. simpl. rewrite Map_get_set_eq. reflexivity.
  - apply (merge_keeps_value n _ (fst st, snd st) E).
Qed.

Lemma contributions_with_checked (l : list Element) s :
  In s l -> name s = n -> isInputCheckable s = true -> callable_getValue s = None ->
  checked s = true ->
  forall st : MapData * heap,
    is_nullish (Map_get n (fst (fold_left contribute l st))) = false.
Proof.
  intros Hin Hname Hc Hg Hchecked st.
  apply in_split in Hin as (l1 & l2 & ->).
  rewrite fold_left_app. simpl. apply contributions_keep_value.
  apply contribute_checked; assumption.
Qed.

End OneName.

Lemma contribute_unchecked (data : MapData) (σ : heap) u :
  isInputCheckable u = true -> callable_getValue u = None -> checked u = false ->
  contribute (data, σ) u =
  ((if is_nullish (Map_get (name u) data) then Map_set (name u) (VJson JNull) data
    else data), σ).
Proof.
  intros Hc Hg Hunchecked. unfold contribute. simpl.
  rewrite (getChildValue_checkable u σ Hc Hg), Hunchecked.
  unfold merge. destruct (is_nullish (Map_get (name u) data)); reflexivity.
Qed.

(** C2: an unchecked checkbox or radio without a callable [getValue]
    leaves the Map and the store exactly as they are when its name
    already holds a value; and in a form where a checked sibling of the
    same name is walked, before or after it, the call without a mutator
    returns the same store and the same lookup under every key as for
    the form without the unchecked control, the entry under that name
    being non-null unless an append seed overwrites it. *)
Theorem unchecked_sibling_contributes_nothing :
  (forall (data : MapData) (σ : heap) (u : Element),
      isInputCheckable u = true ->
      callable_getValue u = None ->
      checked u = false ->
      is_nullish (Map_get (name u) data) = false ->
      walk_step (data, σ) u = (data, σ))
  /\ (forall (before after : list Element) (u s : Element)
             (opts : IFormToSerializableOptions) (σ : heap),
        eligible u = true ->
        isInputCheckable u = true ->
        callable_getValue u = None ->
        checked u = false ->
        In s (before ++ after) ->
        eligible s = true ->
        name s = name u ->
        isInputCheckable s = true ->
        callable_getValue s = None ->
        checked s = true ->
        mutator opts = None ->
        exists data1 data2 σ',
          formToMap (ArgForm {| descendants := before ++ u :: after |}) opts σ =
            Returned data1 σ'
          /\ formToMap (ArgForm {| descendants := before ++ after |}) opts σ =
               Returned data2 σ'
          /\ (forall k, Map_get k data1 = Map_get k data2)
          /\ (~ In (name u) (seed_keys (append opts)) ->
              is_nullish (Map_get (name u) data1) = false)).
Proof.
  split.
  - intros data σ u Hc Hg Hunchecked Hprev.
    destruct (skipped_type u) eqn:Hskip; [apply walk_step_skipped, Hskip|].
    rewrite walk_step_eligible by exact Hskip.
    rewrite (getChildValue_checkable u σ Hc Hg), Hunchecked. cbn [fst snd].
    unfold merge. rewrite Hprev. reflexivity.
  - intros before after u s opts σ Hu Hcu Hgu Hunchecked Hs Hes Hname Hcs Hgs Hchecked Hmu.
    rewrite !formToMap_without_mutator by exact Hmu.
    rewrite !merged_contributions. unfold walked. cbn [descendants fst snd].
    rewrite !List.filter_app. cbn [List.filter]. rewrite Hu.
    rewrite !fold_left_app. cbn [fold_left].
    set (Wb := List.filter eligible before).
    set (Wa := List.filter eligible after).
    set (init := (apply_seed (prepend opts) [], σ)).
    assert (Hsib : is_nullish
              (Map_get (name u) (fst (fold_left contribute Wa (fold_left contribute Wb init))))
              = false).
    { rewrite <- fold_left_app.
      apply (contributions_with_checked (name u) (Wb ++ Wa) s); try assumption.
      subst Wb Wa. rewrite <- List.filter_app. apply filter_In. split; assumption. }
    destruct (fold_left contribute Wb init) as [d0 σ0] eqn:E0.
    rewrite (contribute_unchecked d0 σ0 u Hcu Hgu Hunchecked).
    set (d0' := if is_nullish (Map_get (name u) d0)
                then Map_set (name u) (VJson JNull) d0 else d0).
    assert (Hsim0 : same_up_to_null (name u) d0' d0).
    { subst d0'. intros k. destruct (is_nullish (Map_get (name u) d0)) eqn:En;
        [|left; reflexivity].
      rewrite Map_get_set. destruct (String.eqb (name u) k) eqn:Ek;
        [|left; reflexivity].
      apply String.eqb_eq in Ek. subst k. right. repeat split; assumption. }
    destruct (contributions_same_up_to_null (name u) Wa d0' d0 σ0 Hsim0) as [Hsim Hheap].
    assert (Hsame : forall k,
              Map_get k (fst (fold_left contribute Wa (d0', σ0)))
              = Map_get k (fst (fold_left contribute Wa (d0, σ0)))).
    { intros k. destruct (Hsim k) as [H|(-> & _ & H)]; [exact H|]. congruence. }
    do 3 eexists. split; [reflexivity|]. split; [rewrite Hheap; reflexivity|].
    split.
    + apply apply_seed_same_lookups, Hsame.
    + intros Happ. rewrite apply_seed_get_other by exact Happ.
      rewrite Hsame. exact Hsib.
Qed.

(** C2 with the unchecked box before its checked sibling, and after a
    value is already there. *)
Lemma unchecked_sibling_contributes_nothing_witness :
  (exists data1 data2 σ',
     formToMap (ArgForm {| descendants :=
                   [] ++ checkbox "x" "a" false
                      :: [text_input "y" "1"; checkbox "x" "b" true] |})
       no_options [] = Returned data1 σ'
     /\ formToMap (ArgForm {| descendants :=
                   [] ++ [text_input "y" "1"; checkbox "x" "b" true] |})
          no_options [] = Returned data2 σ'
     /\ (forall k, Map_get k data1 = Map_get k data2)
     /\ (~ In "x" [] -> is_nullish (Map_get "x" data1) = false))
  /\ walk_step ([Some ("x", VJson (JStr "b"))], []) (checkbox "x" "a" false)
     = ([Some ("x", VJson (JStr "b"))], []).
Proof.
  split.
  - apply (proj2 unchecked_sibling_contributes_nothing
             [] [text_input "y" "1"; checkbox "x" "b" true]
             (checkbox "x" "a" false) (checkbox "x" "b" true) no_options []);
      try reflexivity.
    right. left. reflexivity.
  - apply (proj1 unchecked_sibling_contributes_nothing); reflexivity.
Defined.

(** ** Repeated names accumulate *)

Lemma allocated_mono (σ σ' : heap) v :
  length σ <= length σ' -> allocated σ v -> allocated σ' v.
Proof. destruct v as [|[]]; simpl; trivial. lia. Qed.

Lemma heap_extends_refl (σ : heap) : heap_extends σ σ.
Proof. split; [lia | trivial]. Qed.

Lemma heap_extends_alloc (σ0 σ : heap) o :
  heap_extends σ0 σ -> heap_extends σ0 (σ ++ [o]).
Proof.
  intros [Hlen Hrec]. split.
  - rewrite length_app. simpl. lia.
  - intros l ps H. apply lookup_app_l_Some, Hrec, H.
Qed.

Lemma heap_extends_push (σ0 σ : heap) v items :
  heap_extends σ0 σ -> heap_extends σ0 (Array_push σ v items).
Proof.
  intros [Hlen Hrec]. unfold Array_push.
  destruct v as [|[| | | |l]]; try (split; assumption).
  destruct (σ !! l) as [[elems|ps]|] eqn:El; try (split; assumption).
  split.
  - rewrite length_insert. exact Hlen.
  - intros l' ps H. rewrite list_lookup_insert_ne; [apply Hrec, H|].
    intros ->. apply Hrec in H. congruence.
Qed.

Create HintDb store.
#[local] Hint Resolve heap_extends_refl heap_extends_alloc heap_extends_push : store.

Lemma scalar_cases (σ : heap) v :
  scalar σ v = true ->
  is_nullish v = false /\ Array_isArray σ v = false /\ allocated σ v.
Proof.
  destruct v as [|[| | | |l]]; simpl; try discriminate; try (repeat split; reflexivity).
  destruct (σ !! l) as [[|]|] eqn:El; try discriminate.
  intros _. repeat split. apply lookup_lt_Some in El. exact El.
Qed.

Lemma scalar_extends (σ0 σ : heap) v :
  heap_extends σ0 σ -> scalar σ0 v = true -> scalar σ v = true.
Proof.
  intros [_ Hrec]. destruct v as [|[| | | |l]]; simpl; trivial.
  destruct (σ0 !! l) as [[|ps]|] eqn:El; try discriminate.
  rewrite (Hrec l ps El). reflexivity.
Qed.

(** What a control can yield: the result of its [getValue], a fresh
    array, its value string, or null. *)
Lemma getChildValue_cases child (σ : heap) :
  (exists r, callable_getValue child = Some r /\ getChildValue child σ = (r, σ))
  \/ (exists elems, getChildValue child σ = (VJson (JRef (length σ)), σ ++ [OArray elems]))
  \/ (exists s, getChildValue child σ = (VJson (JStr s), σ))
  \/ getChildValue child σ = (VJson JNull, σ).
Proof.
  unfold getChildValue.
  destruct (callable_getValue child) as [r|]; [left; eauto|]. right.
  unfold isInputCheckable, alloc.
  destruct (kind child), (multiple child),
    (includes ["checkbox"; "radio"] (toLowerCase (type child))), (checked child);
    first [ right; right; reflexivity
          | right; left; eexists; reflexivity
          | left; eexists; reflexivity ].
Qed.

Lemma getChildValue_scalar_stable child (σ0 σ : heap) :
  scalar σ0 (fst (getChildValue child σ0)) = true ->
  getChildValue child σ = (fst (getChildValue child σ0), σ).
Proof.
  unfold getChildValue.
  destruct (callable_getValue child) as [r|]; [reflexivity|].
  unfold isInputCheckable, alloc.
  destruct (kind child), (multiple child),
    (includes ["checkbox"; "radio"] (toLowerCase (type child))), (checked child);
    try reflexivity; cbn [fst scalar]; rewrite lookup_ge_None_2 by lia; discriminate.
Qed.

Lemma Array_push_length (σ : heap) v items :
  length (Array_push σ v items) = length σ.
Proof.
  unfold Array_push. destruct v as [|[| | | |l]]; try reflexivity.
  destruct (σ !! l) as [[|]|]; try reflexivity. apply length_insert.
Qed.

Lemma Array_push_lookup_ne (σ : heap) v items l :
  v <> VJson (JRef l) -> Array_push σ v items !! l = σ !! l.
Proof.
  intros Hne. unfold Array_push. destruct v as [|[| | | |l']]; try reflexivity.
  destruct (σ !! l') as [[|]|]; try reflexivity.
  apply list_lookup_insert_ne. congruence.
Qed.

Lemma refs_allocated_set (data : MapData) (σ σ' : heap) k v :
  refs_allocated data σ -> length σ <= length σ' -> allocated σ' v ->
  refs_allocated (Map_set k v data) σ'.
Proof.
  intros Hrefs Hlen Hv k'. rewrite Map_get_set.
  destruct (String.eqb k k'); [exact Hv|].
  apply (allocated_mono σ), Hrefs. exact Hlen.
Qed.

Lemma refs_allocated_mono (data : MapData) (σ σ' : heap) :
  refs_allocated data σ -> length σ <= length σ' -> refs_allocated data σ'.
Proof. intros Hrefs Hlen k. apply (allocated_mono σ), Hrefs. exact Hlen. Qed.

Section Accumulation.

(** [σ0] is the store when the walk starts, [n] the name followed. *)
Variables (σ0 : heap) (n : string).

(** The entry under [n] keeps gathering [acc] when the Map still answers
    the same under [n], the array it may point to is still there, and no
    other entry has come to point to it. *)
Lemma entry_collects_preserved acc (data data' : MapData) (σ σ' : heap) :
  entry_collects σ0 n acc data σ ->
  Map_get n data' = Map_get n data ->
  (forall l x y rest,
      acc = x :: y :: rest ->
      Map_get n data = VJson (JRef l) -> σ !! l = Some (OArray acc) ->
      σ' !! l = Some (OArray acc)
      /\ forall k, k <> n -> Map_get k data <> VJson (JRef l) ->
                   Map_get k data' <> VJson (JRef l)) ->
  entry_collects σ0 n acc data' σ'.
Proof.
  intros Hentry Hsame Hkeep. destruct acc as [|x [|y rest]]; simpl in *.
  - rewrite Hsame. exact Hentry.
  - rewrite Hsame. exact Hentry.
  - destruct Hentry as (l & Hget & Hl & Hfresh & Hothers).
    destruct (Hkeep l x y rest eq_refl Hget Hl) as [Hl' Hothers'].
    exists l. rewrite Hsame. repeat split; try assumption.
    intros k Hk. apply Hothers', Hothers; exact Hk.
Qed.

Lemma getChildValue_invariant acc (data : MapData) (σ : heap) child :
  walk_invariant σ0 n acc (data, σ) ->
  (forall r, callable_getValue child = Some r -> allocated σ0 r) ->
  walk_invariant σ0 n acc (data, snd (getChildValue child σ))
  /\ allocated (snd (getChildValue child σ)) (fst (getChildValue child σ))
  /\ not_the_array n acc data (fst (getChildValue child σ)).
Proof.
  intros (Hext & Hrefs & Hentry) Hget. simpl in *.
  destruct (getChildValue_cases child σ)
    as [(r & Hr & ->)|[(elems & ->)|[(s & ->)| ->]]]; simpl.
  - split; [exact (conj Hext (conj Hrefs Hentry))|]. split.
    + apply (allocated_mono σ0); [apply Hext | apply Hget, Hr].
    + destruct acc as [|x [|y rest]]; simpl; trivial.
      destruct Hentry as (l & Hl & _ & Hfresh & _). rewrite Hl. intros ->.
      specialize (Hget _ Hr). simpl in Hget. lia.
  - split; [|split].
    + split; [cbn [snd]; auto with store|]. split; simpl.
      * apply (refs_allocated_mono data σ); [exact Hrefs|].
        rewrite length_app. simpl. lia.
      * apply (entry_collects_preserved acc data data σ); [exact Hentry | reflexivity|].
        intros l x y rest _ _ Hl. split; [apply lookup_app_l_Some, Hl | trivial].
    + rewrite length_app. simpl. lia.
    + destruct acc as [|x [|y rest]]; simpl; trivial.
      destruct Hentry as (l & Hl & Hσ & _). rewrite Hl. intros H. inversion H.
      apply lookup_lt_Some in Hσ. lia.
  - split; [exact (conj Hext (conj Hrefs Hentry))|]. split; [exact I|].
    destruct acc as [|x [|y rest]]; simpl; trivial.
    destruct Hentry as (l & Hl & _). rewrite Hl. discriminate.
  - split; [exact (conj Hext (conj Hrefs Hentry))|]. split; [exact I|].
    destruct acc as [|x [|y rest]]; simpl; trivial.
    destruct Hentry as (l & Hl & _). rewrite Hl. discriminate.
Qed.

Lemma Map_get_set_same k k' (data : MapData) :
  Map_get k' (Map_set k (Map_get k data) data) = Map_get k' data.
Proof.
  rewrite Map_get_set. destruct (String.eqb k k') eqn:E; [|reflexivity].
  apply String.eqb_eq in E. subst. reflexivity.
Qed.

(** A pair under another name leaves the entry under [n] gathering the
    same values. *)
Lemma merge_other_invariant acc (data : MapData) (σ : heap) k v :
  walk_invariant σ0 n acc (data, σ) ->
  k <> n -> allocated σ v -> not_the_array n acc data v ->
  walk_invariant σ0 n acc (merge k v (data, σ)).
Proof.
  intros (Hext & Hrefs & Hentry) Hk Hv Hnot. cbn [fst snd] in *.
  unfold merge.
  destruct (is_nullish (Map_get k data)) eqn:Eprev.
  { split; [exact Hext|]. split; cbn [fst snd].
    - apply (refs_allocated_set data σ); [exact Hrefs | lia | exact Hv].
    - apply (entry_collects_preserved acc data _ σ);
        [exact Hentry | apply Map_get_set_ne, Hk|].
      intros l x y rest -> Hget Hl. split; [exact Hl|].
      intros k' Hk' Hold. rewrite Map_get_set.
      destruct (String.eqb k k'); [|exact Hold].
      simpl in Hnot. congruence. }
  destruct (is_nullish v) eqn:Ev.
  { exact (conj Hext (conj Hrefs Hentry)). }
  destruct (Array_isArray σ (Map_get k data)) eqn:Earr.
  - split; [cbn [snd]; auto with store|]. split; cbn [fst snd].
    + intros k'. rewrite Map_get_set_same.
      apply (allocated_mono σ); [rewrite Array_push_length; lia | apply Hrefs].
    + apply (entry_collects_preserved acc data _ σ);
        [exact Hentry | apply Map_get_set_same|].
      intros l x y rest -> Hget Hl. split.
      * rewrite Array_push_lookup_ne; [exact Hl|].
        simpl in Hentry. destruct Hentry as (l' & Hget' & _ & _ & Hothers).
        assert (l' = l) by congruence. subst l'. apply Hothers, Hk.
      * intros k' Hk' Hold. rewrite Map_get_set_same. exact Hold.
  - unfold alloc. split; [cbn [snd]; auto with store|]. split; cbn [fst snd].
    + apply (refs_allocated_set data σ); [exact Hrefs | |].
      * rewrite length_app. simpl. lia.
      * simpl. rewrite length_app. simpl. lia.
    + apply (entry_collects_preserved acc data _ σ);
        [exact Hentry | apply Map_get_set_ne, Hk|].
      intros l x y rest -> Hget Hl. split; [apply lookup_app_l_Some, Hl|].
      intros k' Hk' Hold. rewrite Map_get_set.
      destruct (String.eqb k k'); [|exact Hold].
      intros H. inversion H. apply lookup_lt_Some in Hl. lia.
Qed.

(** A scalar under the name [n] joins the values gathered there. *)
Lemma merge_same_invariant acc (data : MapData) (σ : heap) x :
  walk_invariant σ0 n acc (data, σ) ->
  Forall (fun v => scalar σ0 v = true) acc ->
  scalar σ0 x = true ->
  walk_invariant σ0 n (acc ++ [x]) (merge n x (data, σ)).
Proof.
  intros (Hext & Hrefs & Hentry) Hacc Hx. cbn [fst snd] in *.
  pose proof (scalar_extends σ0 σ x Hext Hx) as Hxσ.
  destruct (scalar_cases σ x Hxσ) as (Hxnull & Hxarr & Hxalloc).
  destruct acc as [|y [|z rest]]; simpl in Hentry.
  - rewrite merge_absent by exact Hentry.
    split; [exact Hext|]. split; cbn [fst snd].
    + apply (refs_allocated_set data σ); [exact Hrefs | lia | exact Hxalloc].
    + simpl. apply Map_get_set_eq.
  - apply Forall_cons in Hacc as [Hy _].
    pose proof (scalar_extends σ0 σ y Hext Hy) as Hyσ.
    destruct (scalar_cases σ y Hyσ) as (Hynull & Hyarr & _).
    unfold merge. rewrite Hentry, Hynull, Hxnull, Hyarr, Hxarr. unfold alloc.
    split; [cbn [snd]; auto with store|]. split; cbn [fst snd].
    + apply (refs_allocated_set data σ); [exact Hrefs | |].
      * rewrite length_app. simpl. lia.
      * simpl. rewrite length_app. simpl. lia.
    + simpl. exists (length σ). rewrite Map_get_set_eq.
      split; [reflexivity|]. split; [apply list_lookup_middle; reflexivity|].
      split; [apply Hext|].
      intros k Hk. rewrite Map_get_set_ne by congruence.
      intros H. specialize (Hrefs k). rewrite H in Hrefs. simpl in Hrefs. lia.
  - destruct Hentry as (l & Hget & Hl & Hfresh & Hothers).
    unfold merge. rewrite Hget. cbn [is_nullish]. rewrite Hxnull.
    unfold Array_isArray at 1. rewrite Hl, Hxarr.
    unfold Array_push. rewrite Hl.
    split; [|split]; cbn [fst snd].
    + destruct Hext as [Hlen Hrec]. split; [rewrite length_insert; exact Hlen|].
      intros l' ps H. rewrite list_lookup_insert_ne; [apply Hrec, H|].
      intros ->. apply Hrec in H. congruence.
    + apply (refs_allocated_set data σ); [exact Hrefs | rewrite length_insert; lia |].
      simpl. rewrite length_insert. apply lookup_lt_Some in Hl. exact Hl.
    + simpl. exists l. rewrite Map_get_set_eq.
      split; [reflexivity|]. split.
      * apply list_lookup_insert_eq. apply lookup_lt_Some in Hl. exact Hl.
      * split; [exact Hfresh|].
        intros k Hk. rewrite Map_get_set_ne by congruence. apply Hothers, Hk.
Qed.

Lemma contributions_invariant (W : list Element) :
  forall (acc : list JSValue) (st : MapData * heap),
    walk_invariant σ0 n acc st ->
    Forall (fun v => scalar σ0 v = true) acc ->
    (forall c, In c W -> name c = n -> scalar σ0 (fst (getChildValue c σ0)) = true) ->
    (forall c r, In c W -> callable_getValue c = Some r -> allocated σ0 r) ->
    walk_invariant σ0 n (acc ++ named_values n σ0 W) (fold_left contribute W st).
Proof.
  induction W as [|c W IH]; intros acc [data σ] Hinv Hacc Hscalar Halloc.
  - unfold named_values. simpl. rewrite app_nil_r. exact Hinv.
  - cbn [fold_left]. unfold named_values. cbn [List.filter].
    rewrite contribute_unfold.
    assert (HscalarW : forall c', In c' W -> name c' = n ->
                                  scalar σ0 (fst (getChildValue c' σ0)) = true).
    { intros c' Hc'. apply Hscalar. right. exact Hc'. }
    assert (HallocW : forall c' r, In c' W -> callable_getValue c' = Some r ->
                                   allocated σ0 r).
    { intros c' r Hc'. apply Halloc. right. exact Hc'. }
    destruct (String.eqb (name c) n) eqn:En.
    + apply String.eqb_eq in En.
      assert (Hx : scalar σ0 (fst (getChildValue c σ0)) = true).
      { apply Hscalar; [left; reflexivity | exact En]. }
      rewrite (getChildValue_scalar_stable c σ0 σ Hx). cbn [fst snd map].
      rewrite En, (cons_middle _ acc), app_assoc.
      apply IH; try assumption.
      * apply merge_same_invariant; assumption.
      * apply Forall_app. split; [exact Hacc|]. apply Forall_singleton. exact Hx.
    + apply String.eqb_neq in En.
      destruct (getChildValue_invariant acc data σ c Hinv)
        as (Hinv' & Hv & Hnot).
      { intros r. apply Halloc. left. reflexivity. }
      apply IH; try assumption.
      apply merge_other_invariant; assumption.
Qed.

End Accumulation.

Lemma apply_seed_refs_allocated seed (σ : heap) :
  (forall k j, In (k, j) (seed_list seed) -> allocated σ (VJson j)) ->
  refs_allocated (apply_seed seed []) σ.
Proof.
  intros Hseed. destruct seed as [s|]; simpl in *; [|intros k; exact I].
  apply (fold_left_invariant (fun d : MapData => refs_allocated d σ)).
  - intros d [k j] Hin Hd. apply (refs_allocated_set d σ); [exact Hd | lia|].
    apply (Hseed k j Hin).
  - intros k. exact I.
Qed.

Lemma entry_collects_collected σ0 n acc (data : MapData) (σ : heap) :
  entry_collects σ0 n acc data σ -> collected σ (Map_get n data) acc.
Proof.
  destruct acc as [|x [|y rest]]; simpl; trivial.
  intros (l & Hget & Hl & _). exists l. split; assumption.
Qed.

(** C1: take a name [n] that no seed uses and a form in which every
    walked control named [n] yields a non-null scalar.  Without a
    mutator, the Map returned holds under [n] the value itself when one
    control carries the name, and, when several do, an array whose
    elements are exactly their values in document order, whatever the
    other controls of the form are.  (References handed in by seeds and
    by [getValue] are taken to point into the store.) *)
Theorem repeated_names_accumulate :
  forall (f : HTMLFormElement) (opts : IFormToSerializableOptions)
         (σ : heap) (n : string),
    mutator opts = None ->
    ~ In n (seed_keys (prepend opts)) ->
    ~ In n (seed_keys (append opts)) ->
    (forall k j, In (k, j) (seed_list (prepend opts)) -> allocated σ (VJson j)) ->
    (forall c r, In c (walked f) -> callable_getValue c = Some r -> allocated σ r) ->
    (forall c, In c (walked f) -> name c = n ->
               scalar σ (fst (getChildValue c σ)) = true) ->
    exists data σ',
      formToMap (ArgForm f) opts σ = Returned data σ'
      /\ collected σ' (Map_get n data) (named_values n σ (walked f)).
Proof.
  intros f opts σ n Hmu Hpre Happ Hseed Halloc Hscalar.
  rewrite formToMap_without_mutator by exact Hmu.
  do 2 eexists. split; [reflexivity|].
  rewrite merged_contributions. cbn [fst snd].
  rewrite apply_seed_get_other by exact Happ.
  assert (Hinit : walk_invariant σ n [] (apply_seed (prepend opts) [], σ)).
  { split; [cbn [snd]; auto with store|]. split; cbn [fst snd].
    - apply apply_seed_refs_allocated, Hseed.
    - simpl. rewrite apply_seed_get_other by exact Hpre. reflexivity. }
  pose proof (contributions_invariant σ n (walked f) [] _ Hinit
                (List.Forall_nil _) Hscalar Halloc) as (_ & _ & Hentry).
  apply (entry_collects_collected σ n _ _ _ Hentry).
Qed.

(** C1 on three fields named tags, one of them a custom control
    returning an object, among a multi-select and a field of another
    name that build an array of their own. *)
Lemma repeated_names_accumulate_witness :
  let σ := [ORecord [("n", VJson (JNum 1))]] in
  let f := {| descendants :=
                [ text_input "tags" "t1";
                  select_multiple "fruits" ["apple"; "banana"];
                  custom_control (text_input "tags" "") (VJson (JRef 0));
                  text_input "fruits" "cherry";
                  checkbox "tags" "t3" true ] |} in
  let opts := {| mutator := None;
                 prepend := Some (SeedObject [("src", JStr "form")]);
                 append := None |} in
  exists data σ',
    formToMap (ArgForm f) opts σ = Returned data σ'
    /\ exists l, Map_get "tags" data = VJson (JRef l)
                 /\ σ' !! l = Some (OArray [VJson (JStr "t1"); VJson (JRef 0);
                                            VJson (JStr "t3")]).
Proof.
  intros σ f opts.
  apply (repeated_names_accumulate f opts σ "tags").
  - reflexivity.
  - simpl. intros [H|[]]. discriminate.
  - simpl. intros [].
  - simpl. intros k j [H|[]]. inversion H. exact I.
  - intros c r [<-|[<-|[<-|[<-|[<-|[]]]]]]; simpl; intros H; try discriminate.
    inversion H. simpl. lia.
  - intros c [<-|[<-|[<-|[<-|[<-|[]]]]]]; simpl; intros H;
      first [discriminate | reflexivity].
Defined.

(** * Further properties of [formToMap] *)

(** ** The order of the keys *)

Lemma Map_has_existsb k (m : MapData) :
  Map_has k m = existsb (String.eqb k) (Map_keys m).
Proof.
  unfold Map_keys. induction m as [|[[k0 v0]|] m IH]; simpl.
  - reflexivity.
  - rewrite (String.eqb_sym k k0). destruct (String.eqb k0 k); [reflexivity | exact IH].
  - exact IH.
Qed.

Lemma Map_keys_set_add k v (m : MapData) :
  Map_keys (Map_set k v m) = add_key (Map_keys m) k.
Proof. rewrite Map_keys_set, Map_has_existsb. reflexivity. Qed.

Lemma Map_has_of_get k (m : MapData) :
  Map_get k m <> VUndefined -> Map_has k m = true.
Proof.
  induction m as [|[[k0 v0]|] m IH]; simpl.
  - intros H. contradiction.
  - destruct (String.eqb k0 k); [reflexivity | exact IH].
  - exact IH.
Qed.

Lemma merge_keys childName childValue (data : MapData) (σ : heap) :
  Map_keys (fst (merge childName childValue (data, σ))) = add_key (Map_keys data) childName.
Proof.
  unfold merge.
  destruct (is_nullish (Map_get childName data)) eqn:Eprev; cbn [fst].
  { apply Map_keys_set_add. }
  destruct (is_nullish childValue); cbn [fst].
  { unfold add_key. rewrite <- Map_has_existsb, Map_has_of_get; [reflexivity|].
    intros H. rewrite H in Eprev. discriminate. }
  destruct (Array_isArray σ (Map_get childName data)); cbn [fst];
    apply Map_keys_set_add.
Qed.

Lemma apply_seed_keys seed (data : MapData) :
  Map_keys (apply_seed seed data) = fold_left add_key (seed_keys seed) (Map_keys data).
Proof.
  destruct seed as [s|]; simpl; [|reflexivity].
  generalize (seed_entries s). intros l. revert data.
  induction l as [|[k j] l IH]; intros data; simpl; [reflexivity|].
  rewrite IH, Map_keys_set_add. reflexivity.
Qed.

Lemma contributions_keys (W : list Element) :
  forall st : MapData * heap,
    Map_keys (fst (fold_left contribute W st))
    = fold_left add_key (map name W) (Map_keys (fst st)).
Proof.
  induction W as [|c W IH]; intros [data σ]; simpl; [reflexivity|].
  rewrite IH, contribute_unfold, merge_keys. reflexivity.
Qed.

(** X1: without a mutator, the keys of the returned Map are the prepend
    keys, the names of the walked controls and the append keys, each at
    the place where it is first seen in that sequence. *)
Theorem keys_in_first_seen_order :
  forall (f : HTMLFormElement) (opts : IFormToSerializableOptions) (σ : heap),
    exists data σ',
      formToMap (ArgForm f) (with_mutator None opts) σ = Returned data σ'
      /\ Map_keys data
         = first_seen (seed_keys (prepend opts) ++ map name (walked f)
                       ++ seed_keys (append opts)).
Proof.
  intros f opts σ. rewrite formToMap_without_mutator by reflexivity.
  do 2 eexists. split; [reflexivity|].
  rewrite merged_with_mutator, merged_contributions. cbn [fst snd].
  rewrite apply_seed_keys, contributions_keys. cbn [fst].
  rewrite apply_seed_keys. unfold first_seen.
  rewrite !fold_left_app. reflexivity.
Qed.

(** ** Forms without repeated names *)

Lemma Map_set_absent k v (m : MapData) :
  ~ In k (Map_keys m) -> Map_set k v m = m ++ [Some (k, v)].
Proof.
  intros H. rewrite <- (app_nil_r m) at 1.
  rewrite Map_set_app_fresh by exact H. reflexivity.
Qed.

Lemma NoDup_app_cons_absent (l1 l2 : list string) k :
  NoDup (l1 ++ k :: l2) -> ~ In k l1 /\ NoDup ((l1 ++ [k]) ++ l2).
Proof.
  intros H. split.
  - apply NoDup_app in H as (_ & Hdisj & _). intros Hin.
    apply (Hdisj k); [apply list_elem_of_In, Hin | left].
  - rewrite <- app_assoc. exact H.
Qed.

Lemma apply_seed_fresh seed (data : MapData) :
  NoDup (Map_keys data ++ seed_keys seed) ->
  apply_seed seed data = data ++ map Some (seed_pairs seed).
Proof.
  unfold seed_pairs, seed_keys, seed_list, apply_seed.
  destruct seed as [s|]; [|intros _; simpl; rewrite app_nil_r; reflexivity].
  generalize (seed_entries s). intros l. revert data.
  induction l as [|[k j] l IH]; intros data Hnd; simpl.
  - rewrite app_nil_r. reflexivity.
  - simpl in Hnd. apply NoDup_app_cons_absent in Hnd as [Hk Hnd].
    rewrite Map_set_absent by exact Hk.
    rewrite IH.
    + rewrite <- app_assoc. reflexivity.
    + rewrite Map_keys_app. exact Hnd.
Qed.

Lemma Map_entries_map_Some (l : list (string * JSValue)) :
  Map_entries (map Some l) = l.
Proof. induction l as [|e l IH]; simpl; [reflexivity | f_equal; exact IH]. Qed.

Lemma contributions_fresh (W : list Element) :
  forall (data : MapData) (σ : heap),
    NoDup (Map_keys data ++ map name W) ->
    fold_left contribute W (data, σ)
    = (data ++ map Some (fst (extract W σ)), snd (extract W σ)).
Proof.
  induction W as [|c W IH]; intros data σ Hnd; simpl.
  - rewrite app_nil_r. reflexivity.
  - simpl in Hnd. apply NoDup_app_cons_absent in Hnd as [Hk Hnd].
    rewrite contribute_unfold.
    destruct (getChildValue c σ) as [v σ1]. cbn [fst snd].
    rewrite merge_absent by (rewrite Map_get_absent by exact Hk; reflexivity).
    rewrite Map_set_absent by exact Hk.
    rewrite IH by (rewrite Map_keys_app; exact Hnd).
    destruct (extract W σ1) as [pairs σ']. cbn [fst snd map].
    rewrite <- app_assoc. reflexivity.
Qed.

Lemma extract_names (W : list Element) :
  forall σ, map fst (fst (extract W σ)) = map name W.
Proof.
  induction W as [|c W IH]; intros σ; simpl; [reflexivity|].
  destruct (getChildValue c σ) as [v σ1]. specialize (IH σ1).
  destruct (extract W σ1) as [pairs σ']. simpl in *. f_equal. exact IH.
Qed.

(** X2: when the prepend keys, the names of the walked controls and the
    append keys are all different, the Map returned without a mutator
    shows, in this order, the prepend entries, one entry per walked
    control in document order holding the value extracted from it, and
    the append entries; the store is the one the extractions leave, so
    the merge itself has built no array. *)
Theorem one_entry_per_control :
  forall (f : HTMLFormElement) (opts : IFormToSerializableOptions) (σ : heap),
    NoDup (seed_keys (prepend opts) ++ map name (walked f) ++ seed_keys (append opts)) ->
    exists data,
      formToMap (ArgForm f) (with_mutator None opts) σ
      = Returned data (snd (extract (walked f) σ))
      /\ Map_entries data
         = seed_pairs (prepend opts) ++ fst (extract (walked f) σ)
           ++ seed_pairs (append opts).
Proof.
  intros f opts σ Hnd. rewrite formToMap_without_mutator by reflexivity.
  rewrite merged_with_mutator, merged_contributions. cbn [fst snd].
  assert (Hpre : apply_seed (prepend opts) [] = map Some (seed_pairs (prepend opts))).
  { rewrite apply_seed_fresh; [reflexivity|].
    apply NoDup_app in Hnd as (H & _ & _). exact H. }
  assert (Hkeys : Map_keys (map Some (seed_pairs (prepend opts))) = seed_keys (prepend opts)).
  { unfold Map_keys. rewrite Map_entries_map_Some.
    unfold seed_pairs, seed_keys, seed_list.
    destruct (prepend opts); [|reflexivity].
    rewrite map_map. reflexivity. }
  rewrite Hpre, contributions_fresh.
  2:{ rewrite Hkeys. rewrite app_assoc in Hnd.
      apply NoDup_app in Hnd as (H & _ & _). exact H. }
  cbn [fst snd]. rewrite apply_seed_fresh.
  2:{ rewrite Map_keys_app, Hkeys. unfold Map_keys at 1.
      rewrite Map_entries_map_Some, extract_names, <- app_assoc. exact Hnd. }
  eexists. split; [reflexivity|].
  rewrite !Map_entries_app, !Map_entries_map_Some, <- app_assoc. reflexivity.
Qed.

(** X2 on a seed, a text field, a multi-select and an unchecked box. *)
Lemma one_entry_per_control_witness :
  exists data,
    formToMap
      (ArgForm {| descendants :=
                    [ text_input "a" "x"; select_multiple "fruits" ["apple"];
                      checkbox "flag" "on" false ] |})
      (with_mutator None
         {| mutator := None; prepend := Some (SeedObject [("src", JStr "form")]);
            append := Some (SeedObject [("done", JBool true)]) |}) []
    = Returned data [OArray [VJson (JStr "apple")]]
    /\ Map_entries data
       = [ ("src", VJson (JStr "form")); ("a", VJson (JStr "x"));
           ("fruits", VJson (JRef 0)); ("flag", VJson JNull);
           ("done", VJson (JBool true)) ].
Proof.
  apply (one_entry_per_control
           {| descendants :=
                [ text_input "a" "x"; select_multiple "fruits" ["apple"];
                  checkbox "flag" "on" false ] |}
           {| mutator := None; prepend := Some (SeedObject [("src", JStr "form")]);
              append := Some (SeedObject [("done", JBool true)]) |} []).
  apply NoDup_ListNoDup. vm_compute.
  repeat (constructor; [simpl; intuition discriminate|]). constructor.
Defined.

(** ** Seeds *)

Lemma apply_seed_get seed k (data : MapData) :
  Map_get k (apply_seed seed data)
  = match last_under k (seed_list seed) with
    | Some j => VJson j
    | None => Map_get k data
    end.
Proof.
  unfold apply_seed, seed_list. destruct seed as [s|]; [|reflexivity].
  generalize (seed_entries s). intros l. revert data.
  induction l as [|[k0 j] l IH]; intros data; simpl; [reflexivity|].
  rewrite IH. destruct (last_under k l); [reflexivity|].
  rewrite Map_get_set. destruct (String.eqb k0 k); reflexivity.
Qed.

(** X3: without a mutator, a key that the append seed carries holds the
    value the seed gives it last, whatever the form and the prepend seed
    put there; a key carried neither by the append seed nor by a walked
    control holds the value the prepend seed gives it last, and nothing
    when the prepend seed does not carry it either. *)
Theorem seeds_overwrite :
  forall (f : HTMLFormElement) (opts : IFormToSerializableOptions) (σ : heap)
         (k : string),
    exists data σ',
      formToMap (ArgForm f) (with_mutator None opts) σ = Returned data σ'
      /\ (forall j, last_under k (seed_list (append opts)) = Some j ->
                    Map_get k data = VJson j)
      /\ (~ In k (seed_keys (append opts)) ->
          ~ In k (map name (walked f)) ->
          Map_get k data
          = match last_under k (seed_list (prepend opts)) with
            | Some j => VJson j
            | None => VUndefined
            end).
Proof.
  intros f opts σ k. rewrite formToMap_without_mutator by reflexivity.
  do 2 eexists. split; [reflexivity|].
  rewrite merged_with_mutator, merged_contributions. cbn [fst snd].
  split.
  - intros j Hj. rewrite apply_seed_get, Hj. reflexivity.
  - intros Happ Hwalk. rewrite apply_seed_get_other by exact Happ.
    rewrite contributions_get_other.
    + cbn [fst]. rewrite apply_seed_get. reflexivity.
    + intros c Hc Hname. apply Hwalk. rewrite <- Hname. apply in_map, Hc.
Qed.

(** X3 on the field x holding a, overwritten by the append seed, and on
    a prepend key given twice. *)
Lemma seeds_overwrite_witness :
  (exists data σ',
     formToMap (ArgForm {| descendants := [text_input "x" "a"] |})
       (with_mutator None
          {| mutator := None; prepend := None;
             append := Some (SeedObject [("x", JStr "b")]) |}) []
     = Returned data σ'
     /\ Map_get "x" data = VJson (JStr "b"))
  /\ (exists data σ',
        formToMap (ArgForm {| descendants := [text_input "x" "a"] |})
          (with_mutator None
             {| mutator := None;
                prepend := Some (SeedMap [("p", JNum 1); ("p", JNum 2)]);
                append := None |}) []
        = Returned data σ'
        /\ Map_get "p" data = VJson (JNum 2)).
Proof.
  split.
  - destruct (seeds_overwrite {| descendants := [text_input "x" "a"] |}
                {| mutator := None; prepend := None;
                   append := Some (SeedObject [("x", JStr "b")]) |} [] "x")
      as (data & σ' & H & Happ & _).
    exists data, σ'. split; [exact H|]. apply Happ. reflexivity.
  - destruct (seeds_overwrite {| descendants := [text_input "x" "a"] |}
                {| mutator := None;
                   prepend := Some (SeedMap [("p", JNum 1); ("p", JNum 2)]);
                   append := None |} [] "p")
      as (data & σ' & H & _ & Hpre).
    exists data, σ'. split; [exact H|]. apply Hpre.
    + simpl. intros [].
    + simpl. intros [H'|[]]. discriminate.
Defined.

(** ** What the call does to the store *)

Lemma grown_refl (σ : heap) : grown σ σ.
Proof.
  split; [lia|]. intros l. destruct (σ !! l) as [[elems|ps]|]; trivial.
  exists []. rewrite app_nil_r. reflexivity.
Qed.

Lemma grown_trans (σ1 σ2 σ3 : heap) : grown σ1 σ2 -> grown σ2 σ3 -> grown σ1 σ3.
Proof.
  intros [Hlen12 H12] [Hlen23 H23]. split; [lia|]. intros l.
  specialize (H12 l). specialize (H23 l).
  destruct (σ1 !! l) as [[elems|ps]|]; trivial.
  - destruct H12 as [m1 H12]. rewrite H12 in H23. destruct H23 as [m2 H23].
    exists (m1 ++ m2). rewrite app_assoc. exact H23.
  - rewrite H12 in H23. exact H23.
Qed.

Lemma grown_alloc (σ : heap) o : grown σ (σ ++ [o]).
Proof.
  split; [rewrite length_app; simpl; lia|]. intros l.
  destruct (σ !! l) as [[elems|ps]|] eqn:El; trivial.
  - exists []. rewrite app_nil_r. apply lookup_app_l_Some, El.
  - apply lookup_app_l_Some, El.
Qed.

Lemma grown_push (σ : heap) v items : grown σ (Array_push σ v items).
Proof.
  unfold Array_push. destruct v as [|[| | | |l]]; try apply grown_refl.
  destruct (σ !! l) as [[elems|ps]|] eqn:El; try apply grown_refl.
  split; [rewrite length_insert; lia|]. intros l'.
  destruct (Nat.eq_dec l l') as [<-|Hne].
  - rewrite El. exists items. apply list_lookup_insert_eq.
    apply lookup_lt_Some in El. exact El.
  - rewrite list_lookup_insert_ne by exact Hne.
    destruct (σ !! l') as [[elems'|ps']|]; trivial.
    exists []. rewrite app_nil_r. reflexivity.
Qed.

#[local] Hint Resolve grown_refl grown_alloc grown_push : store.

Lemma getChildValue_grown child (σ : heap) : grown σ (snd (getChildValue child σ)).
Proof.
  destruct (getChildValue_cases child σ)
    as [(r & _ & ->)|[(elems & ->)|[(s & ->)| ->]]]; cbn [snd]; auto with store.
Qed.

Lemma merge_grown childName childValue (data : MapData) (σ : heap) :
  grown σ (snd (merge childName childValue (data, σ))).
Proof.
  unfold merge, alloc.
  repeat match goal with
         | |- context [if ?b then _ else _] => destruct b
         end; cbn [snd]; auto with store.
Qed.

Lemma contributions_grown (W : list Element) :
  forall st : MapData * heap, grown (snd st) (snd (fold_left contribute W st)).
Proof.
  induction W as [|c W IH]; intros [data σ]; simpl; [apply grown_refl|].
  eapply grown_trans; [|apply IH].
  rewrite contribute_unfold.
  eapply grown_trans; [apply (getChildValue_grown c σ) | apply merge_grown].
Qed.


Lemma merge_beyond σ0 childName childValue (data : MapData) (ext : heap) :
  refs_beyond (length σ0) data ->
  (forall l, childValue = VJson (JRef l) -> length σ0 <= l) ->
  (exists ext', snd (merge childName childValue (data, σ0 ++ ext)) = σ0 ++ ext')
  /\ refs_beyond (length σ0) (fst (merge childName childValue (data, σ0 ++ ext))).
Proof.
  intros Hrefs Hv.
  assert (Hset : forall v, (forall l, v = VJson (JRef l) -> length σ0 <= l) ->
                           refs_beyond (length σ0) (Map_set childName v data)).
  { intros v Hvl k l. rewrite Map_get_set.
    destruct (String.eqb childName k); [apply Hvl | apply Hrefs]. }
  unfold merge.
  destruct (is_nullish (Map_get childName data)); cbn [fst snd].
  { split; [eauto | apply Hset, Hv]. }
  destruct (is_nullish childValue); cbn [fst snd].
  { split; [eauto | exact Hrefs]. }
  destruct (Array_isArray (σ0 ++ ext) (Map_get childName data)) eqn:Earr; cbn [fst snd].
  - split; [|apply Hset; intros l; apply Hrefs].
    unfold Array_push.
    destruct (Map_get childName data) as [|[| | | |l]] eqn:Eprev; eauto.
    destruct ((σ0 ++ ext) !! l) as [[elems|ps]|]; eauto.
    rewrite insert_app_r_alt by (apply (Hrefs childName), Eprev). eauto.
  - unfold alloc. cbn [fst snd]. split.
    + rewrite <- app_assoc. eauto.
    + apply Hset. intros l H. inversion H. rewrite length_app. lia.
Qed.

Lemma contributions_beyond σ0 (W : list Element) :
  forall (data : MapData) (ext : heap),
    (forall c, In c W -> callable_getValue c = None) ->
    refs_beyond (length σ0) data ->
    (exists ext', snd (fold_left contribute W (data, σ0 ++ ext)) = σ0 ++ ext')
    /\ refs_beyond (length σ0) (fst (fold_left contribute W (data, σ0 ++ ext))).
Proof.
  induction W as [|c W IH]; intros data ext Hnative Hrefs; simpl.
  - split; [eauto | exact Hrefs].
  - rewrite contribute_unfold.
    assert (Hc : exists ext1,
               snd (getChildValue c (σ0 ++ ext)) = σ0 ++ ext1
               /\ forall l, fst (getChildValue c (σ0 ++ ext)) = VJson (JRef l) ->
                            length σ0 <= l).
    { destruct (getChildValue_cases c (σ0 ++ ext))
        as [(r & Hr & _)|[(elems & ->)|[(s & ->)| ->]]]; cbn [fst snd].
      - rewrite Hnative in Hr by (left; reflexivity). discriminate.
      - exists (ext ++ [OArray elems]). rewrite app_assoc. split; [reflexivity|].
        intros l H. inversion H. rewrite length_app. lia.
      - exists ext. split; [reflexivity | discriminate].
      - exists ext. split; [reflexivity | discriminate]. }
    destruct Hc as (ext1 & -> & Hv).
    destruct (merge_beyond σ0 (name c) _ data ext1 Hrefs Hv) as [(ext2 & Hσ) Hrefs2].
    destruct (merge (name c) _ (data, σ0 ++ ext1)) as [data2 σ2].
    cbn [fst snd] in *. subst σ2.
    apply IH; [|exact Hrefs2].
    intros c' Hc'. apply Hnative. right. exact Hc'.
Qed.

(** X5: when no walked control has a callable [getValue] and the
    prepend seed holds no array or object, a call without a mutator
    leaves every object of the caller's store as it was: the returned
    store is the given one followed by the arrays the call has made. *)
Theorem native_form_leaves_store :
  forall (f : HTMLFormElement) (opts : IFormToSerializableOptions) (σ : heap),
    (forall c, In c (walked f) -> callable_getValue c = None) ->
    (forall k l, ~ In (k, JRef l) (seed_list (prepend opts))) ->
    exists data fresh,
      formToMap (ArgForm f) (with_mutator None opts) σ = Returned data (σ ++ fresh).
Proof.
  intros f opts σ Hnative Hseed.
  rewrite formToMap_without_mutator by reflexivity.
  rewrite merged_with_mutator, merged_contributions. cbn [fst snd].
  assert (Hinit : refs_beyond (length σ) (apply_seed (prepend opts) [])).
  { intros k l. rewrite apply_seed_get.
    destruct (last_under k (seed_list (prepend opts))) as [j|] eqn:Hj;
      [|discriminate].
    intros H. inversion H. subst j. exfalso.
    revert Hj. generalize (Hseed). generalize (seed_list (prepend opts)).
    intros es Hes. induction es as [|[k0 j0] es IH]; simpl; [discriminate|].
    destruct (last_under k es) as [j'|].
    - intros Hj. apply IH; [|exact Hj].
      intros k' l' Hin. apply (Hes k' l'). right. exact Hin.
    - destruct (String.eqb k0 k); [|discriminate].
      intros Hj. inversion Hj. subst j0. apply (Hes k0 l). left. reflexivity. }
  pose proof (contributions_beyond σ (walked f) (apply_seed (prepend opts) []) []
                Hnative Hinit) as [(fresh & Hσ) _].
  rewrite app_nil_r in Hσ. rewrite Hσ. eauto.
Qed.

(** X5 on the sample form with a primitive seed. *)
Lemma native_form_leaves_store_witness :
  exists data fresh,
    formToMap (ArgForm scenario_form)
      (with_mutator None
         {| mutator := None; prepend := Some (SeedObject [("tags", JStr "t0")]);
            append := None |})
      [OArray [VJson (JStr "kept")]]
    = Returned data ([OArray [VJson (JStr "kept")]] ++ fresh).
Proof.
  apply (native_form_leaves_store scenario_form
           {| mutator := None; prepend := Some (SeedObject [("tags", JStr "t0")]);
              append := None |}).
  - intros c [<-|[<-|[<-|[<-|[]]]]]; reflexivity.
  - intros k l [H|[]]. discriminate.
Defined.

(** ** With a mutator nothing undefined is left *)

Lemma mutate_entries_keys mu (es : list (string * JSValue)) :
  forall σ, sublist (map fst (fst (mutate_entries mu es σ))) (map fst es).
Proof.
  induction es as [|[k v] es IH]; intros σ; simpl; [constructor|].
  destruct (mu k v σ) as [nv σ1]. specialize (IH σ1).
  destruct (mutate_entries mu es σ1) as [rest' σ']. simpl in *.
  destruct nv as [|j]; simpl; [apply sublist_cons, IH | apply sublist_skip, IH].
Qed.

(** X6: as soon as a mutator is given, whatever it does and whatever the
    controls' [getValue] return, the call returns a Map none of whose
    entries is undefined (an entry the mutator maps to undefined is
    deleted, any other value it returns is defined), and whose keys are
    keys of the merged Map in their order there: the pass adds no key
    and moves none. *)
Theorem mutator_leaves_no_undefined :
  forall (f : HTMLFormElement) (opts : IFormToSerializableOptions)
         (mu : IFormMapMutatorFunction) (σ : heap),
    exists data σ',
      formToMap (ArgForm f) (with_mutator (Some mu) opts) σ = Returned data σ'
      /\ (forall k v, In (k, v) (Map_entries data) -> v <> VUndefined)
      /\ sublist (Map_keys data) (Map_keys (fst (merged f opts σ))).
Proof.
  intros f opts mu σ.
  destruct (formToMap_mutated f (with_mutator (Some mu) opts) mu σ eq_refl)
    as (data' & H1 & H2 & _).
  rewrite merged_with_mutator in *.
  exists data'. eexists. split; [exact H1|]. split.
  - intros k v Hkv. rewrite H2 in Hkv. apply mutate_entries_In in Hkv as [_ Hv]. exact Hv.
  - unfold Map_keys at 1. rewrite H2. apply mutate_entries_keys.
Qed.

(** ** One name, native controls: nulls skipped, lists spliced *)

Lemma getChildValue_native child (σ : heap) :
  callable_getValue child = None ->
  getChildValue child σ
  = match native_value child with
    | NNull => (VJson JNull, σ)
    | NStr s => (VJson (JStr s), σ)
    | NList l => alloc σ (OArray (strings l))
    end.
Proof.
  intros Hg. unfold getChildValue, native_value. rewrite Hg.
  unfold isInputCheckable.
  destruct (kind child), (multiple child),
    (includes ["checkbox"; "radio"] (toLowerCase (type child))), (checked child);
    reflexivity.
Qed.

Lemma plain_not_array (σ : heap) v : plain v = true -> Array_isArray σ v = false.
Proof. destruct v as [|[]]; simpl; trivial. discriminate. Qed.

Lemma plain_allocated (σ : heap) v : plain v = true -> allocated σ v.
Proof. destruct v as [|[]]; simpl; trivial. discriminate. Qed.

Lemma lookup_fresh (σ : heap) o : (σ ++ [o]) !! length σ = Some o.
Proof. apply list_lookup_middle. reflexivity. Qed.

Lemma isArray_lookup (σ : heap) l elems :
  σ !! l = Some (OArray elems) ->
  Array_isArray σ (VJson (JRef l)) = true /\ spread σ (VJson (JRef l)) = elems.
Proof. intros H. simpl. rewrite H. split; reflexivity. Qed.

Section Gathering.

Variables (σ0 : heap) (n : string).

Lemma invariant_value (data : MapData) (σ : heap) v :
  heap_extends σ0 σ -> refs_allocated data σ -> plain v = true ->
  gather_invariant σ0 n (GValue v) (Map_set n v data, σ).
Proof.
  intros Hext Hrefs Hv. split; [exact Hext|]. split; cbn [fst snd].
  - apply (refs_allocated_set data σ); [exact Hrefs | lia | apply plain_allocated, Hv].
  - split; [apply Map_get_set_eq | exact Hv].
Qed.

Lemma invariant_array (data : MapData) (σ σ' : heap) l elems :
  heap_extends σ0 σ' -> refs_allocated data σ -> length σ <= length σ' ->
  σ' !! l = Some (OArray elems) -> length σ0 <= l ->
  (forall k, k <> n -> Map_get k data <> VJson (JRef l)) ->
  gather_invariant σ0 n (GArray elems) (Map_set n (VJson (JRef l)) data, σ').
Proof.
  intros Hext Hrefs Hlen Hl Hfresh Hothers. split; [exact Hext|]. split; cbn [fst snd].
  - apply (refs_allocated_set data σ); [exact Hrefs | exact Hlen|].
    simpl. apply lookup_lt_Some in Hl. exact Hl.
  - exists l. rewrite Map_get_set_eq. repeat split; try assumption.
    intros k Hk. rewrite Map_get_set_ne by congruence. apply Hothers, Hk.
Qed.

Lemma refs_allocated_not_fresh (data : MapData) (σ : heap) k :
  refs_allocated data σ -> Map_get k data <> VJson (JRef (length σ)).
Proof. intros Hrefs H. specialize (Hrefs k). rewrite H in Hrefs. simpl in Hrefs. lia. Qed.

(** A native control named [n] moves the entry as [gather_step] says. *)
Lemma merge_native_invariant g (data : MapData) (σ : heap) child :
  gather_invariant σ0 n g (data, σ) ->
  callable_getValue child = None ->
  gather_invariant σ0 n (gather_step g (native_value child))
    (merge n (fst (getChildValue child σ)) (data, snd (getChildValue child σ))).
Proof.
  intros (Hext & Hrefs & Hentry) Hnative. cbn [fst snd] in *.
  rewrite (getChildValue_native child σ Hnative).
  pose proof (heap_extends_alloc σ0 σ) as Hext1.
  assert (Hlen1 : forall o, length σ <= length (σ ++ [o])).
  { intros o. rewrite length_app. simpl. lia. }
  destruct g as [p|elems]; simpl in Hentry.
  - destruct Hentry as [Hget Hplain].
    pose proof (plain_not_array σ p Hplain) as Hparr.
    unfold gather_step. destruct (is_nullish p) eqn:Hpnull.
    + destruct (native_value child) as [|s|opts]; unfold alloc; cbn [fst snd];
        rewrite merge_absent by (rewrite Hget; exact Hpnull).
      * apply invariant_value; [assumption | assumption | reflexivity].
      * apply invariant_value; [assumption | assumption | reflexivity].
      * apply (invariant_array data σ); auto.
        -- apply lookup_fresh.
        -- apply Hext.
        -- intros k _. apply refs_allocated_not_fresh, Hrefs.
    + destruct (native_value child) as [|s|opts]; unfold alloc; cbn [fst snd].
      * unfold merge. rewrite Hget, Hpnull. cbn [is_nullish].
        split; [exact Hext|]. split; [exact Hrefs|]. split; assumption.
      * unfold merge, alloc. rewrite Hget, Hpnull, Hparr. cbn [is_nullish Array_isArray].
        apply (invariant_array data σ); auto.
        -- apply lookup_fresh.
        -- apply Hext.
        -- intros k _. apply refs_allocated_not_fresh, Hrefs.
      * destruct (isArray_lookup _ _ _ (lookup_fresh σ (OArray (strings opts))))
          as [Harr Hspread].
        unfold merge, alloc. rewrite Hget, Hpnull.
        rewrite (plain_not_array _ p Hplain), Harr, Hspread. cbn [is_nullish].
        apply (invariant_array data σ).
        -- apply heap_extends_alloc, Hext1, Hext.
        -- exact Hrefs.
        -- rewrite !length_app. simpl. lia.
        -- apply lookup_fresh.
        -- rewrite length_app. simpl. destruct Hext. lia.
        -- intros k _ H. specialize (Hrefs k). rewrite H in Hrefs.
           simpl in Hrefs. rewrite length_app in Hrefs. simpl in Hrefs. lia.
  - destruct Hentry as (l & Hget & Hl & Hfresh & Hothers).
    destruct (isArray_lookup σ l elems Hl) as [Harr _].
    pose proof (lookup_lt_Some _ _ _ Hl) as Hlt.
    unfold gather_step.
    destruct (native_value child) as [|s|opts]; unfold alloc; cbn [fst snd].
    + unfold merge. rewrite Hget. cbn [is_nullish].
      split; [exact Hext|]. split; [exact Hrefs|]. exists l. repeat split; assumption.
    + unfold merge. rewrite Hget, Harr. cbn [is_nullish Array_isArray].
      unfold Array_push. rewrite Hl.
      apply (invariant_array data σ); auto.
      * apply (heap_extends_push σ0 σ (VJson (JRef l)) [VJson (JStr s)]) in Hext.
        unfold Array_push in Hext. rewrite Hl in Hext. exact Hext.
      * rewrite length_insert. lia.
      * apply list_lookup_insert_eq, Hlt.
    + set (σ1 := σ ++ [OArray (strings opts)]).
      assert (Hl1 : σ1 !! l = Some (OArray elems)) by (apply lookup_app_l_Some, Hl).
      destruct (isArray_lookup σ1 l elems Hl1) as [Harr1 _].
      destruct (isArray_lookup _ _ _ (lookup_fresh σ (OArray (strings opts))))
        as [Harr2 Hspread].
      fold σ1 in Harr2, Hspread.
      unfold merge. rewrite Hget, Harr1, Harr2, Hspread. cbn [is_nullish].
      unfold Array_push. rewrite Hl1.
      apply (invariant_array data σ); auto.
      * apply (heap_extends_push σ0 σ1 (VJson (JRef l)) (strings opts)) in Hext1;
          [|exact Hext].
        unfold Array_push in Hext1. rewrite Hl1 in Hext1. exact Hext1.
      * rewrite length_insert. apply Hlen1.
      * apply list_lookup_insert_eq. apply lookup_lt_Some in Hl1. exact Hl1.
Qed.

End Gathering.

Section GatheringAmongOthers.

Variables (σ0 : heap) (n : string).

Lemma entry_holds_preserved g (data data' : MapData) (σ σ' : heap) :
  entry_holds σ0 n g data σ ->
  Map_get n data' = Map_get n data ->
  (forall l elems,
      g = GArray elems ->
      Map_get n data = VJson (JRef l) -> σ !! l = Some (OArray elems) ->
      σ' !! l = Some (OArray elems)
      /\ forall k, k <> n -> Map_get k data <> VJson (JRef l) ->
                   Map_get k data' <> VJson (JRef l)) ->
  entry_holds σ0 n g data' σ'.
Proof.
  intros Hentry Hsame Hkeep. destruct g as [p|elems]; simpl in *.
  - rewrite Hsame. exact Hentry.
  - destruct Hentry as (l & Hget & Hl & Hfresh & Hothers).
    destruct (Hkeep l elems eq_refl Hget Hl) as [Hl' Hothers'].
    exists l. rewrite Hsame. repeat split; try assumption.
    intros k Hk. apply Hothers', Hothers; exact Hk.
Qed.

Lemma getChildValue_gather_invariant g (data : MapData) (σ : heap) child :
  gather_invariant σ0 n g (data, σ) ->
  (forall r, callable_getValue child = Some r -> allocated σ0 r) ->
  gather_invariant σ0 n g (data, snd (getChildValue child σ))
  /\ allocated (snd (getChildValue child σ)) (fst (getChildValue child σ))
  /\ (forall elems, g = GArray elems -> fst (getChildValue child σ) <> Map_get n data).
Proof.
  intros (Hext & Hrefs & Hentry) Hget. cbn [fst snd] in *.
  destruct (getChildValue_cases child σ)
    as [(r & Hr & ->)|[(elems & ->)|[(s & ->)| ->]]]; cbn [fst snd].
  - split; [exact (conj Hext (conj Hrefs Hentry))|]. split.
    + apply (allocated_mono σ0); [apply Hext | apply Hget, Hr].
    + intros elems ->. destruct Hentry as (l & Hl & _ & Hfresh & _).
      rewrite Hl. intros ->. specialize (Hget _ Hr). simpl in Hget. lia.
  - split; [|split].
    + split; [cbn [snd]; auto with store|]. split; cbn [fst snd].
      * apply (refs_allocated_mono data σ); [exact Hrefs|].
        rewrite length_app. simpl. lia.
      * apply (entry_holds_preserved g data data σ); [exact Hentry | reflexivity|].
        intros l es _ _ Hl. split; [apply lookup_app_l_Some, Hl | trivial].
    + simpl. rewrite length_app. simpl. lia.
    + intros es ->. destruct Hentry as (l & Hl & Hσ & _). rewrite Hl.
      intros H. inversion H. apply lookup_lt_Some in Hσ. lia.
  - split; [exact (conj Hext (conj Hrefs Hentry))|]. split; [exact I|].
    intros es ->. destruct Hentry as (l & Hl & _). rewrite Hl. discriminate.
  - split; [exact (conj Hext (conj Hrefs Hentry))|]. split; [exact I|].
    intros es ->. destruct Hentry as (l & Hl & _). rewrite Hl. discriminate.
Qed.

Lemma merge_other_gather_invariant g (data : MapData) (σ : heap) k v :
  gather_invariant σ0 n g (data, σ) ->
  k <> n -> allocated σ v ->
  (forall elems, g = GArray elems -> v <> Map_get n data) ->
  gather_invariant σ0 n g (merge k v (data, σ)).
Proof.
  intros (Hext & Hrefs & Hentry) Hk Hv Hnot. cbn [fst snd] in *.
  unfold merge.
  destruct (is_nullish (Map_get k data)) eqn:Eprev.
  { split; [exact Hext|]. split; cbn [fst snd].
    - apply (refs_allocated_set data σ); [exact Hrefs | lia | exact Hv].
    - apply (entry_holds_preserved g data _ σ);
        [exact Hentry | apply Map_get_set_ne, Hk|].
      intros l es -> Hget Hl. split; [exact Hl|].
      intros k' Hk' Hold. rewrite Map_get_set.
      destruct (String.eqb k k'); [|exact Hold].
      specialize (Hnot es eq_refl). congruence. }
  destruct (is_nullish v) eqn:Ev.
  { exact (conj Hext (conj Hrefs Hentry)). }
  destruct (Array_isArray σ (Map_get k data)) eqn:Earr.
  - split; [cbn [snd]; auto with store|]. split; cbn [fst snd].
    + intros k'. rewrite Map_get_set_same.
      apply (allocated_mono σ); [rewrite Array_push_length; lia | apply Hrefs].
    + apply (entry_holds_preserved g data _ σ);
        [exact Hentry | apply Map_get_set_same|].
      intros l es -> Hget Hl. split.
      * rewrite Array_push_lookup_ne; [exact Hl|].
        simpl in Hentry. destruct Hentry as (l' & Hget' & _ & _ & Hothers).
        assert (l' = l) by congruence. subst l'. apply Hothers, Hk.
      * intros k' Hk' Hold. rewrite Map_get_set_same. exact Hold.
  - unfold alloc. split; [cbn [snd]; auto with store|]. split; cbn [fst snd].
    + apply (refs_allocated_set data σ); [exact Hrefs | |].
      * rewrite length_app. simpl. lia.
      * simpl. rewrite length_app. simpl. lia.
    + apply (entry_holds_preserved g data _ σ);
        [exact Hentry | apply Map_get_set_ne, Hk|].
      intros l es -> Hget Hl. split; [apply lookup_app_l_Some, Hl|].
      intros k' Hk' Hold. rewrite Map_get_set.
      destruct (String.eqb k k'); [|exact Hold].
      intros H. inversion H. apply lookup_lt_Some in Hl. lia.
Qed.

Lemma contributions_gather_invariant (W : list Element) :
  forall (g : Gathered) (st : MapData * heap),
    gather_invariant σ0 n g st ->
    (forall c, In c W -> name c = n -> callable_getValue c = None) ->
    (forall c r, In c W -> callable_getValue c = Some r -> allocated σ0 r) ->
    gather_invariant σ0 n
      (fold_left gather_step (map native_value (named n W)) g)
      (fold_left contribute W st).
Proof.
  induction W as [|c W IH]; intros g [data σ] Hinv Hnative Halloc.
  - exact Hinv.
  - cbn [fold_left]. unfold named. cbn [List.filter]. rewrite contribute_unfold.
    assert (HnativeW : forall c', In c' W -> name c' = n -> callable_getValue c' = None).
    { intros c' Hc'. apply Hnative. right. exact Hc'. }
    assert (HallocW : forall c' r, In c' W -> callable_getValue c' = Some r ->
                                   allocated σ0 r).
    { intros c' r Hc'. apply Halloc. right. exact Hc'. }
    destruct (String.eqb (name c) n) eqn:En.
    + apply String.eqb_eq in En. cbn [map fold_left]. rewrite En.
      apply IH; try assumption.
      apply merge_native_invariant; [exact Hinv|].
      apply Hnative; [left; reflexivity | exact En].
    + apply String.eqb_neq in En.
      destruct (getChildValue_gather_invariant g data σ c Hinv)
        as (Hinv' & Hv & Hnot).
      { intros r. apply Halloc. left. reflexivity. }
      apply IH; try assumption.
      apply merge_other_gather_invariant; assumption.
Qed.

End GatheringAmongOthers.

Lemma entry_holds_holds σ0 n g (data : MapData) (σ : heap) :
  entry_holds σ0 n g data σ -> holds σ (Map_get n data) g.
Proof.
  destruct g as [p|elems]; simpl.
  - intros [H _]. exact H.
  - intros (l & Hget & Hl & _). exists l. split; assumption.
Qed.



(** * The wrappers *)

(** ** Plain objects *)

Section PlainObjectFacts.

Context {V : Type}.
Implicit Types (props entries : list (string * V)).

Lemma Object_getOwn_define k k' (v : V) props :
  Object_getOwn k' (Object_define k v props)
  = if String.eqb k k' then Some v else Object_getOwn k' props.
Proof.
  induction props as [|[k0 v0] props IH]; simpl.
  - reflexivity.
  - destruct (String.eqb k0 k) eqn:E0; simpl.
    + apply String.eqb_eq in E0; subst k0. destruct (String.eqb k k'); reflexivity.
    + destruct (String.eqb k0 k') eqn:E1; [|exact IH].
      apply String.eqb_eq in E1; subst k0. rewrite String.eqb_sym, E0. reflexivity.
Qed.

Lemma Object_define_keys k (v : V) props :
  map fst (Object_define k v props) = add_key (map fst props) k.
Proof.
  unfold add_key. induction props as [|[k0 v0] props IH]; simpl.
  - reflexivity.
  - rewrite (String.eqb_sym k k0). destruct (String.eqb k0 k); simpl; [reflexivity|].
    rewrite IH. destruct (existsb (String.eqb k) (map fst props)); reflexivity.
Qed.

Lemma Object_fromEntries_keys entries :
  map fst (Object_fromEntries entries) = first_seen (map fst entries).
Proof.
  unfold Object_fromEntries, first_seen.
  change (@nil string) with (map fst (@nil (string * V))).
  generalize (@nil (string * V)). induction entries as [|[k v] entries IH]; intros props.
  - reflexivity.
  - simpl. rewrite IH, Object_define_keys. reflexivity.
Qed.

Lemma Object_define_absent k (v : V) props :
  ~ In k (map fst props) -> Object_define k v props = props ++ [(k, v)].
Proof.
  induction props as [|[k0 v0] props IH]; simpl; intros Hnot; [reflexivity|].
  destruct (String.eqb k0 k) eqn:E0.
  - apply String.eqb_eq in E0. exfalso. apply Hnot. left. exact E0.
  - f_equal. apply IH. intros H. apply Hnot. right. exact H.
Qed.

Lemma Object_fromEntries_distinct entries :
  NoDup (map fst entries) -> Object_fromEntries entries = entries.
Proof.
  unfold Object_fromEntries. intros Hnd.
  enough (H : forall props, NoDup (map fst props ++ map fst entries) ->
            fold_left (fun ps kv => Object_define (fst kv) (snd kv) ps) entries props
            = props ++ entries) by (apply (H []), Hnd).
  clear Hnd. induction entries as [|[k v] entries IH]; intros props Hnd; simpl.
  - rewrite app_nil_r. reflexivity.
  - simpl in Hnd. apply NoDup_app_cons_absent in Hnd as [Hk Hnd].
    rewrite Object_define_absent by exact Hk.
    rewrite IH by (rewrite map_app; exact Hnd).
    rewrite <- app_assoc. reflexivity.
Qed.

End PlainObjectFacts.

Lemma insert_index_Permutation x l : Permutation (insert_index x l) (x :: l).
Proof.
  induction l as [|y l IH]; simpl; [reflexivity|].
  destruct (fst x <=? fst y)%N; [reflexivity|].
  rewrite IH. apply perm_swap.
Qed.

Lemma sort_indices_Permutation l : Permutation (sort_indices l) l.
Proof.
  induction l as [|x l IH]; simpl; [reflexivity|].
  rewrite insert_index_Permutation, IH. reflexivity.
Qed.

Lemma keys_split_Permutation (keys : list string) :
  Permutation (map snd (index_keys keys) ++ other_keys keys) keys.
Proof.
  induction keys as [|k keys IH]; simpl; [reflexivity|].
  destruct (array_index k); simpl.
  - apply perm_skip, IH.
  - rewrite <- Permutation_middle. apply perm_skip, IH.
Qed.

Lemma Object_keys_Permutation {V : Type} (props : list (string * V)) :
  Permutation (Object_keys props) (map fst props).
Proof.
  unfold Object_keys.
  rewrite (Permutation_map snd (sort_indices_Permutation _)).
  apply keys_split_Permutation.
Qed.

Lemma index_keys_none (keys : list string) :
  (forall k, In k keys -> array_index k = None) ->
  index_keys keys = [] /\ other_keys keys = keys.
Proof.
  induction keys as [|k keys IH]; intros Hnone; [split; reflexivity|].
  destruct IH as [IH1 IH2].
  { intros k0 H0. apply Hnone. right. exact H0. }
  simpl. rewrite (Hnone k) by (left; reflexivity). simpl.
  split; [exact IH1 | f_equal; exact IH2].
Qed.

Lemma Object_keys_no_index {V : Type} (props : list (string * V)) :
  (forall k, In k (map fst props) -> array_index k = None) ->
  Object_keys props = map fst props.
Proof.
  intros Hnone. unfold Object_keys.
  destruct (index_keys_none _ Hnone) as [-> ->]. reflexivity.
Qed.

(** ** formToObject *)

Lemma Object_getOwn_entries k (data : MapData) :
  Object_getOwn k (Map_entries data)
  = if Map_has k data then Some (Map_get k data) else None.
Proof.
  induction data as [|[[k0 v0]|] data IH]; simpl.
  - reflexivity.
  - destruct (String.eqb k0 k); [reflexivity | exact IH].
  - exact IH.
Qed.

Lemma formToMap_NoDup form opts σ data σ' :
  formToMap form opts σ = Returned data σ' -> NoDup (Map_keys data).
Proof.
  destruct form as [| | j | e | f]; try discriminate.
  - unfold formToMap. destruct (truthy (ArgValue j)); discriminate.
  - destruct (mutator opts) as [mu|] eqn:Hmu.
    + rewrite (formToMap_with_mutator f opts mu σ Hmu). intros H. inversion H.
      pose proof (merged_NoDup f opts σ) as Hnd.
      destruct (mutate_slots_entries mu (fst (merged f opts σ)) (snd (merged f opts σ)))
        as [Hes _].
      subst data. unfold Map_keys. rewrite Hes.
      eapply sublist_NoDup; [exact Hnd | apply mutate_entries_keys].
    + rewrite (formToMap_without_mutator f opts σ Hmu). intros H. inversion H.
      apply merged_NoDup.
Qed.

Lemma formToObject_returns f opts σ :
  exists data σ',
    formToMap (ArgForm f) opts σ = Returned data σ'
    /\ formToObject (ArgForm f) opts σ = ReturnedObject (Map_entries data) σ'.
Proof.
  destruct (formToMap_returns f opts σ) as (data & σ' & H).
  exists data, σ'. split; [exact H|].
  unfold formToObject, mapToObject. rewrite H.
  rewrite Object_fromEntries_distinct; [reflexivity|].
  apply (formToMap_NoDup _ _ _ _ _ H).
Qed.

(** X8: [formToObject] throws exactly when [formToMap] does, with the
    same error; for a form it returns the same store and an object whose
    own properties are, one for one and in creation order, the entries
    of the Map that [formToMap] returns, so that every own-property
    lookup gives what the Map gives under that key and nothing where the
    Map has no entry. *)
Theorem formToObject_agrees_with_formToMap :
  forall (form : Argument) (opts : IFormToSerializableOptions) (σ : heap),
    match form with
    | ArgForm f =>
        exists data σ',
          formToMap form opts σ = Returned data σ'
          /\ formToObject form opts σ = ReturnedObject (Map_entries data) σ'
          /\ forall k, Object_getOwn k (Map_entries data)
                       = if Map_has k data then Some (Map_get k data) else None
    | _ =>
        formToMap form opts σ = InvalidArgument
        /\ formToObject form opts σ
           = ThrewObject "The form element must be an HTMLFormElement."
    end.
Proof.
  intros [| | j | e | f] opts σ; try (split; reflexivity).
  - unfold formToObject, formToMap. destruct (truthy (ArgValue j)); split; reflexivity.
  - destruct (formToObject_returns f opts σ) as (data & σ' & Hmap & Hobj).
    exists data, σ'. split; [exact Hmap|]. split; [exact Hobj|].
    intros k. apply Object_getOwn_entries.
Qed.


(** A field named 1 after a field named b: the Map keeps the document
    order, the object enumerates 1 first. *)
Example numeric_name_moves_first :
  formToMap (ArgForm {| descendants := [text_input "b" "x"; text_input "1" "y"] |})
    no_options []
  = Returned [Some ("b", VJson (JStr "x")); Some ("1", VJson (JStr "y"))] []
  /\ Object_keys [("b", VJson (JStr "x")); ("1", VJson (JStr "y"))] = ["1"; "b"].
Proof. split; reflexivity. Qed.


(** ** The wrappers by identifier *)

Lemma find_none {A : Type} (p : A -> bool) (l : list A) :
  (forall x, In x l -> p x = false) -> List.find p l = None.
Proof.
  induction l as [|x l IH]; intros H; simpl; [reflexivity|].
  rewrite (H x) by (left; reflexivity). apply IH.
  intros y Hy. apply H. right. exact Hy.
Qed.

Lemma find_first {A : Type} (p : A -> bool) (before after : list A) x :
  (forall y, In y before -> p y = false) -> p x = true ->
  List.find p (before ++ x :: after) = Some x.
Proof.
  induction before as [|y before IH]; intros H Hx; simpl.
  - rewrite Hx. reflexivity.
  - rewrite (H y) by (left; reflexivity). apply IH; [|exact Hx].
    intros z Hz. apply H. right. exact Hz.
Qed.

Lemma has_ID_empty d : has_ID "" d = false.
Proof.
  unfold has_ID, element_ID.
  destruct d as [[id|] f|[id|] e]; try reflexivity;
    destruct (String.eqb id "") eqn:E; try reflexivity; exact E.
Qed.

Lemma formToObject_not_form form opts σ :
  instanceof_HTMLFormElement form = false ->
  formToMap form opts σ = InvalidArgument
  /\ formToObject form opts σ
     = ThrewObject "The form element must be an HTMLFormElement.".
Proof.
  intros H. assert (Hmap : formToMap form opts σ = InvalidArgument).
  { unfold formToMap. rewrite H. rewrite orb_true_r. reflexivity. }
  split; [exact Hmap|]. unfold formToObject. rewrite Hmap. reflexivity.
Qed.

(** X10: [formToMapById] and [formToObjectById] throw the
    invalid-argument error when no element of the document has the given
    ID (so always for the empty identifier) and when the first element
    with that ID is not a form; when the first element with that ID is a
    form, they are [formToMap] and [formToObject] on that form, later
    elements with the same ID being ignored. *)
Theorem wrappers_by_identifier :
  forall (document : list DocumentElement) (formId : string)
         (opts : IFormToSerializableOptions) (σ : heap),
    (formToMapById document "" opts σ = InvalidArgument)
    /\ ((forall d, In d document -> has_ID formId d = false) ->
        formToMapById document formId opts σ = InvalidArgument
        /\ formToObjectById document formId opts σ
           = ThrewObject "The form element must be an HTMLFormElement.")
    /\ (forall before after id_attr e,
          document = before ++ OtherElement id_attr e :: after ->
          (forall d, In d before -> has_ID formId d = false) ->
          has_ID formId (OtherElement id_attr e) = true ->
          formToMapById document formId opts σ = InvalidArgument
          /\ formToObjectById document formId opts σ
             = ThrewObject "The form element must be an HTMLFormElement.")
    /\ (forall before after id_attr f,
          document = before ++ FormElement id_attr f :: after ->
          (forall d, In d before -> has_ID formId d = false) ->
          has_ID formId (FormElement id_attr f) = true ->
          formToMapById document formId opts σ = formToMap (ArgForm f) opts σ
          /\ formToObjectById document formId opts σ = formToObject (ArgForm f) opts σ).
Proof.
  intros document formId opts σ.
  unfold formToMapById, formToObjectById, formById, getElementById.
  split; [|split; [|split]].
  - rewrite find_none by (intros d _; apply has_ID_empty). reflexivity.
  - intros Hnone. rewrite find_none by exact Hnone.
    apply formToObject_not_form. reflexivity.
  - intros before after id_attr e -> Hbefore Hid.
    rewrite (find_first _ before after _ Hbefore Hid).
    apply formToObject_not_form. reflexivity.
  - intros before after id_attr f -> Hbefore Hid.
    rewrite (find_first _ before after _ Hbefore Hid). split; reflexivity.
Qed.

(** X10 on a document with an element without ID, a div and two forms
    that share an ID. *)
Lemma wrappers_by_identifier_witness :
  let div := {| kind := HTMLOtherElement; name_attr := None; disabled := false;
                type := ""; value := ""; checked := false; multiple := false;
                selectedOptions := []; getValue := None |} in
  let document :=
    [ OtherElement (Some "") div; OtherElement (Some "box") div;
      FormElement (Some "f") scenario_form;
      FormElement (Some "f") {| descendants := [] |} ] in
  formToMapById document "f" no_options [] = formToMap (ArgForm scenario_form) no_options []
  /\ formToMapById document "box" no_options [] = InvalidArgument
  /\ formToObjectById document "missing" no_options []
     = ThrewObject "The form element must be an HTMLFormElement.".
Proof.
  intros div document.
  destruct (wrappers_by_identifier document "f" no_options []) as (_ & _ & _ & Hform).
  destruct (wrappers_by_identifier document "box" no_options []) as (_ & _ & Hother & _).
  destruct (wrappers_by_identifier document "missing" no_options []) as (_ & Hnone & _).
  split; [|split].
  - apply (Hform [OtherElement (Some "") div; OtherElement (Some "box") div]
             [FormElement (Some "f") {| descendants := [] |}] (Some "f") scenario_form);
      [reflexivity | | reflexivity].
    intros d [<-|[<-|[]]]; reflexivity.
  - apply (Hother [OtherElement (Some "") div]
             [FormElement (Some "f") scenario_form;
              FormElement (Some "f") {| descendants := [] |}] (Some "box") div);
      [reflexivity | | reflexivity].
    intros d [<-|[]]; reflexivity.
  - apply Hnone. intros d [<-|[<-|[<-|[<-|[]]]]]; reflexivity.
Defined.

(** ** formDataToObject *)

Lemma Object_getOwn_fromEntries_map {V : Type} (h : string -> V) (keys : list string) k :
  Object_getOwn k (Object_fromEntries (map (fun key => (key, h key)) keys))
  = if existsb (String.eqb k) keys then Some (h k) else None.
Proof.
  unfold Object_fromEntries.
  change (@None V) with (Object_getOwn k (@nil (string * V))).
  generalize (@nil (string * V)).
  induction keys as [|k0 keys IH]; intros props; simpl; [reflexivity|].
  rewrite IH, Object_getOwn_define.
  destruct (existsb (String.eqb k) keys); [rewrite orb_true_r; reflexivity|].
  rewrite orb_false_r, (String.eqb_sym k k0).
  destruct (String.eqb k0 k) eqn:E; [|reflexivity].
  apply String.eqb_eq in E. subst k0. reflexivity.
Qed.

Lemma FormData_get_getAll (fd : FormData) key :
  FormData_get fd key = head (FormData_getAll fd key).
Proof.
  unfold FormData_get, FormData_getAll.
  induction fd as [|[k v] fd IH]; simpl; [reflexivity|].
  destruct (String.eqb k key); [reflexivity | exact IH].
Qed.

Lemma FormData_keys_getAll (fd : FormData) key :
  existsb (String.eqb key) (FormData_keys fd)
  = match FormData_getAll fd key with
    | [] => false
    | _ => true
    end.
Proof.
  unfold FormData_keys, FormData_getAll.
  induction fd as [|[k v] fd IH]; simpl; [reflexivity|].
  rewrite (String.eqb_sym key k). destruct (String.eqb k key); [reflexivity | exact IH].
Qed.

(** X11: the object that [formDataToObject] returns has one own property
    per name occurring in the form data, created in the order in which
    the names first occur; under a name carried by one entry it holds
    that entry's value, under a name carried by several it holds the
    array of all their values in entry order, and it holds nothing (and
    never null) under a name that does not occur. *)
Theorem formDataToObject_groups_by_name :
  forall (fd : FormData) (key : string),
    Object_getOwn key (formDataToObject fd)
    = match FormData_getAll fd key with
      | [] => None
      | [v] => Some (OneValue (Some v))
      | vs => Some (AllValues vs)
      end
    /\ map fst (formDataToObject fd) = first_seen (FormData_keys fd).
Proof.
  intros fd key. unfold formDataToObject. split.
  - rewrite (Object_getOwn_fromEntries_map
               (fun key => if (1 <? length (FormData_getAll fd key))%nat
                           then AllValues (FormData_getAll fd key)
                           else OneValue (FormData_get fd key))).
    rewrite FormData_keys_getAll, FormData_get_getAll.
    destruct (FormData_getAll fd key) as [|v [|v' vs]]; reflexivity.
  - rewrite Object_fromEntries_keys, map_map. simpl. rewrite map_id. reflexivity.
Qed.

(** Two values under tags, one under a. *)
Example formDataToObject_sample :
  formDataToObject
    [("tags", EntryString "t1"); ("a", EntryString "1"); ("tags", EntryString "t2")]
  = [ ("tags", AllValues [EntryString "t1"; EntryString "t2"]);
      ("a", OneValue (Some (EntryString "1"))) ].
Proof. reflexivity. Qed.

(** * Calling again *)

Lemma Map_get_relocate n k (data : MapData) :
  Map_get k (relocate n data) = shift n (Map_get k data).
Proof.
  induction data as [|[[k0 v0]|] data IH]; simpl.
  - reflexivity.
  - destruct (String.eqb k0 k); [reflexivity | exact IH].
  - exact IH.
Qed.

Lemma Map_set_relocate n k v (data : MapData) :
  Map_set k (shift n v) (relocate n data) = relocate n (Map_set k v data).
Proof.
  induction data as [|[[k0 v0]|] data IH]; simpl.
  - reflexivity.
  - destruct (String.eqb k0 k); simpl; [reflexivity | f_equal; exact IH].
  - f_equal. exact IH.
Qed.

Lemma is_nullish_shift n v : is_nullish (shift n v) = is_nullish v.
Proof. destruct v as [|[]]; reflexivity. Qed.

Lemma shift_plain n v : plain v = true -> shift n v = v.
Proof. destruct v as [|[]]; simpl; trivial. discriminate. Qed.

Section Relocation.

(** [σ] is the caller's store, [ext] what a call in the empty store has
    built so far. *)
Variable σ : heap.

Lemma lookup_shifted (ext : heap) l : (σ ++ ext) !! (length σ + l) = ext !! l.
Proof. rewrite lookup_app_r by lia. f_equal. lia. Qed.

Lemma isArray_shift (ext : heap) v :
  Array_isArray (σ ++ ext) (shift (length σ) v) = Array_isArray ext v.
Proof.
  destruct v as [|[| | | |l]]; try reflexivity.
  simpl. rewrite lookup_shifted. reflexivity.
Qed.

Lemma spread_shift (ext : heap) v :
  spread (σ ++ ext) (shift (length σ) v) = spread ext v.
Proof.
  destruct v as [|[| | | |l]]; try reflexivity.
  simpl. rewrite lookup_shifted. reflexivity.
Qed.

Lemma Array_push_shift (ext : heap) v items :
  Array_push (σ ++ ext) (shift (length σ) v) items = σ ++ Array_push ext v items.
Proof.
  destruct v as [|[| | | |l]]; try reflexivity.
  simpl. rewrite lookup_shifted.
  destruct (ext !! l) as [[elems|ps]|]; try reflexivity.
  apply insert_app_r.
Qed.

Lemma points_to_arrays_set (data : MapData) (ext ext' : heap) k v :
  points_to_arrays data ext ->
  (forall l elems, ext !! l = Some (OArray elems) ->
                   exists elems', ext' !! l = Some (OArray elems')) ->
  (forall l, v = VJson (JRef l) -> exists elems, ext' !! l = Some (OArray elems)) ->
  points_to_arrays (Map_set k v data) ext'.
Proof.
  intros Hpts Hkeep Hv k' l. rewrite Map_get_set.
  destruct (String.eqb k k'); [apply Hv|].
  intros H. destruct (Hpts k' l H) as [elems He]. apply (Hkeep l elems He).
Qed.

(** A merge in the caller's store is the merge in the empty store,
    moved up. *)
Lemma merge_relocate k v (data : MapData) (ext : heap) :
  points_to_arrays data ext ->
  (forall l, v = VJson (JRef l) -> exists elems, ext !! l = Some (OArray elems)) ->
  merge k (shift (length σ) v) (relocate (length σ) data, σ ++ ext)
  = (relocate (length σ) (fst (merge k v (data, ext))), σ ++ snd (merge k v (data, ext)))
  /\ points_to_arrays (fst (merge k v (data, ext))) (snd (merge k v (data, ext))).
Proof.
  intros Hpts Hv. unfold merge.
  rewrite Map_get_relocate, !is_nullish_shift, !isArray_shift, !spread_shift.
  destruct (is_nullish (Map_get k data)) eqn:Eprev; cbn [fst snd].
  { rewrite Map_set_relocate. split; [reflexivity|].
    apply (points_to_arrays_set data ext); eauto. }
  destruct (is_nullish v) eqn:Ev; cbn [fst snd].
  { split; [reflexivity | exact Hpts]. }
  assert (Hitems : (if Array_isArray ext v then spread ext v else [shift (length σ) v])
                   = (if Array_isArray ext v then spread ext v else [v])).
  { destruct (Array_isArray ext v) eqn:Earr; [reflexivity|].
    rewrite shift_plain; [reflexivity|].
    destruct v as [|[| | | |l]]; try reflexivity.
    destruct (Hv l eq_refl) as [elems He]. simpl in Earr. rewrite He in Earr.
    discriminate. }
  rewrite Hitems.
  destruct (Array_isArray ext (Map_get k data)) eqn:Earr; cbn [fst snd].
  - rewrite Array_push_shift, Map_set_relocate. split; [reflexivity|].
    apply (points_to_arrays_set data ext); [exact Hpts | |].
    + intros l elems He. unfold Array_push.
      destruct (Map_get k data) as [|[| | | |l0]]; eauto.
      destruct (ext !! l0) as [[elems0|ps]|] eqn:E0; eauto.
      destruct (Nat.eq_dec l0 l) as [->|Hne].
      * rewrite list_lookup_insert_eq by (apply lookup_lt_Some in He; exact He). eauto.
      * rewrite list_lookup_insert_ne by exact Hne. eauto.
    + intros l Hl. unfold Array_push. rewrite Hl. rewrite Hl in Earr.
      unfold Array_isArray in Earr.
      destruct (ext !! l) as [[elems0|ps]|] eqn:E0; try discriminate.
      rewrite list_lookup_insert_eq by (apply lookup_lt_Some in E0; exact E0). eauto.
  - unfold alloc. cbn [fst snd].
    assert (Hprev : shift (length σ) (Map_get k data) = Map_get k data).
    { apply shift_plain. destruct (Map_get k data) as [|[| | | |l]] eqn:Eget;
        try reflexivity.
      destruct (Hpts k l Eget) as [elems He]. simpl in Earr. rewrite He in Earr.
      discriminate. }
    rewrite Hprev, length_app, <- app_assoc.
    change (VJson (JRef (length σ + length ext)))
      with (shift (length σ) (VJson (JRef (length ext)))).
    rewrite Map_set_relocate. split; [reflexivity|].
    apply (points_to_arrays_set data ext); [exact Hpts | |].
    + intros l elems He. exists elems. apply lookup_app_l_Some, He.
    + intros l H. inversion H. eexists. apply lookup_fresh.
Qed.

Lemma getChildValue_relocate child (ext : heap) :
  callable_getValue child = None ->
  getChildValue child (σ ++ ext)
  = (shift (length σ) (fst (getChildValue child ext)), σ ++ snd (getChildValue child ext))
  /\ (forall l, fst (getChildValue child ext) = VJson (JRef l) ->
                exists elems, snd (getChildValue child ext) !! l = Some (OArray elems))
  /\ (forall l elems, ext !! l = Some (OArray elems) ->
                      snd (getChildValue child ext) !! l = Some (OArray elems)).
Proof.
  intros Hnative. rewrite !(getChildValue_native _ _ Hnative).
  destruct (native_value child) as [|s|opts]; unfold alloc; cbn [fst snd].
  - split; [reflexivity|]. split; [discriminate | trivial].
  - split; [reflexivity|]. split; [discriminate | trivial].
  - rewrite length_app, <- app_assoc. split; [reflexivity|]. split.
    + intros l H. inversion H. eexists. apply lookup_fresh.
    + intros l elems He. apply lookup_app_l_Some, He.
Qed.

Lemma contributions_relocate (W : list Element) :
  forall (data : MapData) (ext : heap),
    (forall c, In c W -> callable_getValue c = None) ->
    points_to_arrays data ext ->
    fold_left contribute W (relocate (length σ) data, σ ++ ext)
    = (relocate (length σ) (fst (fold_left contribute W (data, ext))),
       σ ++ snd (fold_left contribute W (data, ext))).
Proof.
  induction W as [|c W IH]; intros data ext Hnative Hpts; [reflexivity|].
  cbn [fold_left]. rewrite !contribute_unfold.
  destruct (getChildValue_relocate c ext) as (Hget & Hv & Hkeep).
  { apply Hnative. left. reflexivity. }
  rewrite Hget. cbn [fst snd].
  destruct (getChildValue c ext) as [v ext1]. cbn [fst snd] in *.
  destruct (merge_relocate (name c) v data ext1) as [Hmerge Hpts'].
  { intros k l H. destruct (Hpts k l H) as [elems He]. eauto. }
  { exact Hv. }
  rewrite Hmerge.
  destruct (merge (name c) v (data, ext1)) as [data' ext']. cbn [fst snd] in *.
  apply IH; [|exact Hpts'].
  intros c' Hc'. apply Hnative. right. exact Hc'.
Qed.

End Relocation.

Lemma apply_seed_relocate n seed (data : MapData) :
  ref_free seed ->
  apply_seed seed (relocate n data) = relocate n (apply_seed seed data).
Proof.
  unfold ref_free, apply_seed, seed_list. destruct seed as [s|]; [|reflexivity].
  generalize (seed_entries s). intros l. revert data.
  induction l as [|[k j] l IH]; intros data Hfree; simpl; [reflexivity|].
  rewrite <- IH by (intros k' l' H; apply (Hfree k' l'); right; exact H).
  f_equal. rewrite <- Map_set_relocate. f_equal.
  destruct j; try reflexivity.
  exfalso. apply (Hfree k l0). left. reflexivity.
Qed.

Lemma apply_seed_points_to_arrays seed (σ : heap) :
  ref_free seed -> points_to_arrays (apply_seed seed []) σ.
Proof.
  intros Hfree k l. rewrite apply_seed_get.
  destruct (last_under k (seed_list seed)) as [j|] eqn:Hj; [|discriminate].
  intros H. inversion H. subst j. exfalso.
  revert Hj. generalize Hfree. unfold ref_free. generalize (seed_list seed).
  intros es Hes. induction es as [|[k0 j0] es IH]; simpl; [discriminate|].
  destruct (last_under k es) as [j'|].
  - intros Hj. apply IH; [|exact Hj].
    intros k' l' Hin. apply (Hes k' l'). right. exact Hin.
  - destruct (String.eqb k0 k); [|discriminate].
    intros Hj. inversion Hj. subst j0. apply (Hes k0 l). left. reflexivity.
Qed.

(** X12: when no walked control has a callable [getValue] and no seed
    value is an array or an object, a call without a mutator does not
    depend on the store it runs in: in any store it returns that store
    followed by the arrays it builds in the empty store, and the Map it
    returns in the empty store with its references moved up by the size
    of that store.  In particular a second call, run in the store the
    first one returned, builds the same arrays again and returns a Map
    with the same keys, the same primitive values and references to
    arrays with the same elements. *)
Theorem native_call_is_store_independent :
  forall (f : HTMLFormElement) (opts : IFormToSerializableOptions) (σ : heap),
    (forall c, In c (walked f) -> callable_getValue c = None) ->
    ref_free (prepend opts) ->
    ref_free (append opts) ->
    exists data fresh,
      formToMap (ArgForm f) (with_mutator None opts) [] = Returned data fresh
      /\ formToMap (ArgForm f) (with_mutator None opts) σ
         = Returned (relocate (length σ) data) (σ ++ fresh)
      /\ formToMap (ArgForm f) (with_mutator None opts) (σ ++ fresh)
         = Returned (relocate (length σ + length fresh) data) ((σ ++ fresh) ++ fresh).
Proof.
  intros f opts σ Hnative Hpre Happ.
  assert (Hany : forall σ1,
            merged f opts σ1
            = (relocate (length σ1) (fst (merged f opts [])), σ1 ++ snd (merged f opts []))).
  { intros σ1. rewrite !merged_contributions. cbn [fst snd].
    pose proof (contributions_relocate σ1 (walked f) (apply_seed (prepend opts) []) []
                  Hnative (apply_seed_points_to_arrays _ [] Hpre)) as H.
    rewrite app_nil_r in H.
    rewrite <- (apply_seed_relocate (length σ1) (prepend opts) [] Hpre) in H.
    simpl relocate in H. rewrite H. cbn [fst snd].
    rewrite (apply_seed_relocate _ _ _ Happ). reflexivity. }
  exists (fst (merged f opts [])), (snd (merged f opts [])).
  rewrite !formToMap_without_mutator by reflexivity.
  rewrite !merged_with_mutator.
  split; [reflexivity|]. split.
  - rewrite (Hany σ). reflexivity.
  - rewrite (Hany (σ ++ snd (merged f opts []))). cbn [fst snd].
    rewrite length_app. reflexivity.
Qed.

(** X12 on the sample form, in a store that holds an array already. *)
Lemma native_call_is_store_independent_witness :
  exists data fresh,
    formToMap (ArgForm scenario_form) (with_mutator None no_options) [] = Returned data fresh
    /\ formToMap (ArgForm scenario_form) (with_mutator None no_options)
         [OArray [VJson (JStr "kept")]]
       = Returned (relocate 1 data) ([OArray [VJson (JStr "kept")]] ++ fresh)
    /\ formToMap (ArgForm scenario_form) (with_mutator None no_options)
         ([OArray [VJson (JStr "kept")]] ++ fresh)
       = Returned (relocate (1 + length fresh) data)
           (([OArray [VJson (JStr "kept")]] ++ fresh) ++ fresh).
Proof.
  apply (native_call_is_store_independent scenario_form no_options
           [OArray [VJson (JStr "kept")]]).
  - intros c [<-|[<-|[<-|[<-|[]]]]]; reflexivity.
  - intros k l [].
  - intros k l [].
Defined.

(** With aliasing the second call differs: the array that two custom
    controls share has grown, and grows again. *)
Example second_call_with_shared_array :
  let f := {| descendants :=
                [ custom_control (text_input "x" "") (VJson (JRef 0));
                  custom_control (text_input "y" "") (VJson (JRef 0));
                  text_input "y" "more" ] |} in
  formToMap (ArgForm f) no_options [OArray [VJson (JStr "a")]]
  = Returned [Some ("x", VJson (JRef 0)); Some ("y", VJson (JRef 0))]
             [OArray [VJson (JStr "a"); VJson (JStr "more")]]
  /\ formToMap (ArgForm f) no_options [OArray [VJson (JStr "a"); VJson (JStr "more")]]
     = Returned [Some ("x", VJson (JRef 0)); Some ("y", VJson (JRef 0))]
                [OArray [VJson (JStr "a"); VJson (JStr "more"); VJson (JStr "more")]].
Proof. split; reflexivity. Qed.
